(** * clause_code.utils.file_writer: the file extractor and the file writer

    A shallow embedding of [FileExtractor.extract_files] and
    [FileExtractor.write_files] (src/clause_code/utils/file_writer.py).

    Text is a list of 8-bit character codes; the character classes are
    those of Python's [str] restricted to that range.  The regular
    expression of [extract_files] is kept as a syntax tree and run by a
    backtracking matcher with the priorities of Python's [re] module.

    [write_files] is a computation over a state (the disk, the console,
    the list [created_files]) that may raise; its [try] statements are
    handlers of that computation.  The calls into [pathlib] and [open]
    are the methods of a class [FileSystem], so that the properties of
    the loop hold whatever these calls do; [Disk] is one instance, a
    tree of directories and files with write permissions and without
    symbolic links, on which the examples are run.  [self.console.print]
    is the method of a class [Console]: it raises on lines of its
    choice, but never on a line that carries no opening square bracket
    into its markup. *)

From Stdlib Require Import List Ascii String Bool Arith Lia.
From stdpp Require Import base list gmap strings.
Import ListNotations.

Abbreviation text := (list ascii).

(** A string literal as text. *)
Definition txt (s : string) : text := list_ascii_of_string s.

(** ** Character classes *)

Module Char.

Definition code (c : ascii) : nat := nat_of_ascii c.

Definition nl : ascii := ascii_of_nat 10.
Definition backtick : ascii := ascii_of_nat 96.
Definition star : ascii := ascii_of_nat 42.
Definition slash : ascii := ascii_of_nat 47.

Definition between (lo hi n : nat) : bool := (lo <=? n) && (n <=? hi).

(** [str.isspace] on one character, which is also the class [\s] of a
    [str] pattern: TAB..CR, FS..US, SPACE, NEL and NBSP. *)
Definition isspace (c : ascii) : bool :=
  let n := code c in
  between 9 13 n || between 28 32 n || (n =? 133) || (n =? 160).

(** The class [\w] of a [str] pattern: alphanumerics and underscore. *)
Definition isword (c : ascii) : bool :=
  let n := code c in
  between 48 57 n || between 65 90 n || (n =? 95) || between 97 122 n
  || (n =? 170) || between 178 179 n || (n =? 181) || between 185 186 n
  || between 188 190 n || between 192 214 n || between 216 246 n
  || between 248 255 n.

(** The class [[^`]]. *)
Definition not_backtick (c : ascii) : bool :=
  negb (Ascii.eqb c backtick).

(** The class [.] under [re.DOTALL]. *)
Definition any (c : ascii) : bool := true.

End Char.

(** ** [str.strip] *)

Fixpoint lstrip (s : text) : text :=
  match s with
  | c :: s' => if Char.isspace c then lstrip s' else s
  | [] => []
  end.

Definition rstrip (s : text) : text := rev (lstrip (rev s)).

Definition strip (s : text) : text := rstrip (lstrip s).

(** ** Regular expressions *)

Module Re.

(** The constructs that occur in the pattern of [extract_files].
    Repetition is applied to character classes only. *)
Inductive regex : Type :=
| Lit (c : ascii)
| Star (p : ascii -> bool)
| Plus (p : ascii -> bool)
| LazyStar (p : ascii -> bool)
| Group (n : nat) (r : regex)
| Opt (r : regex)
| Seq (r1 r2 : regex).

(** The groups of a match: [None] for a group that took no part. *)
Definition groups : Type := nat -> option text.

Definition no_groups : groups := fun _ => None.

Definition set_group (n : nat) (v : text) (g : groups) : groups :=
  fun i => if Nat.eqb i n then Some v else g i.

(** The continuation receives the text that is left and the groups. *)
Definition cont : Type := text -> groups -> option (groups * text).

(** Greedy [p*]: the longest run first, then shorter ones. *)
Fixpoint star_greedy (p : ascii -> bool) (s : text) (g : groups) (k : cont)
  : option (groups * text) :=
  match s with
  | c :: s' =>
      if p c then
        match star_greedy p s' g k with
        | Some r => Some r
        | None => k s g
        end
      else k s g
  | [] => k s g
  end.

(** Lazy [p*?]: the shortest run first, then longer ones. *)
Fixpoint star_lazy (p : ascii -> bool) (s : text) (g : groups) (k : cont)
  : option (groups * text) :=
  match k s g with
  | Some r => Some r
  | None =>
      match s with
      | c :: s' => if p c then star_lazy p s' g k else None
      | [] => None
      end
  end.

Fixpoint rmatch (r : regex) (s : text) (g : groups) (k : cont)
  : option (groups * text) :=
  match r with
  | Lit c =>
      match s with
      | c' :: s' => if Ascii.eqb c' c then k s' g else None
      | [] => None
      end
  | Star p => star_greedy p s g k
  | Plus p =>
      match s with
      | c :: s' => if p c then star_greedy p s' g k else None
      | [] => None
      end
  | LazyStar p => star_lazy p s g k
  | Group n r1 =>
      rmatch r1 s g
        (fun s' g' => k s' (set_group n (take (length s - length s') s) g'))
  | Opt r1 =>
      match rmatch r1 s g k with
      | Some x => Some x
      | None => k s g
      end
  | Seq r1 r2 => rmatch r1 s g (fun s' g' => rmatch r2 s' g' k)
  end.

(** [pattern.match] at the head of [s]: the groups and the text left
    after the match. *)
Definition match_at (r : regex) (s : text) : option (groups * text) :=
  rmatch r s no_groups (fun s' g => Some (g, s')).

(** [re.finditer]: the non-overlapping matches from left to right.
    [skip] counts the characters still covered by the last match. *)
Fixpoint finditer_from (r : regex) (skip : nat) (s : text) : list groups :=
  match skip with
  | S n =>
      match s with
      | [] => []
      | _ :: s' => finditer_from r n s'
      end
  | 0 =>
      let here := match_at r s in
      let later :=
        match s with
        | [] => []
        | _ :: s' =>
            finditer_from r
              match here with
              | Some (_, rest) => length s - length rest - 1
              | None => 0
              end s'
        end in
      match here with
      | Some (g, _) => g :: later
      | None => later
      end
  end.

Definition finditer (r : regex) (s : text) : list groups :=
  finditer_from r 0 s.

(** What a successful run of [rmatch r] has consumed and recorded:
    [matches r s g s' g'] reads "from text [s] with groups [g], [r] can
    leave [s'] with groups [g']". *)
Inductive matches : regex -> text -> groups -> text -> groups -> Prop :=
| m_lit c s g : matches (Lit c) (c :: s) g s g
| m_star p run s g :
    forallb p run = true -> matches (Star p) (run ++ s) g s g
| m_plus p run s g :
    run <> [] -> forallb p run = true -> matches (Plus p) (run ++ s) g s g
| m_lazy p run s g :
    forallb p run = true -> matches (LazyStar p) (run ++ s) g s g
| m_group n r s g s' g' :
    matches r s g s' g' ->
    matches (Group n r) s g s'
      (set_group n (take (length s - length s') s) g')
| m_opt_some r s g s' g' : matches r s g s' g' -> matches (Opt r) s g s' g'
| m_opt_none r s g : matches (Opt r) s g s g
| m_seq r1 r2 s g s1 g1 s2 g2 :
    matches r1 s g s1 g1 -> matches r2 s1 g1 s2 g2 ->
    matches (Seq r1 r2) s g s2 g2.

(** A sequence of literal characters. *)
Fixpoint lits (s : text) (r : regex) : regex :=
  match s with
  | [] => r
  | c :: s' => Seq (Lit c) (lits s' r)
  end.

End Re.

(** ** The extractor *)

(** One element of the list that [extract_files] returns and
    [write_files] consumes: the tuple [(filepath, content, language)].
    [content] is an [option] because [write_files] tests it for [None]. *)
Record FileRecord : Type := mkFile {
  filepath : text;
  content : option text;
  language : text
}.

Global Instance FileRecord_eq_dec : EqDecision FileRecord.
Proof. solve_decision. Defined.

Definition fence : text := txt "```".

(** The pattern of [extract_files],
    [r'\*\*File:\s*`([^`]+)`\*\*\s*\n```(\w+)?\n(.*?)\n```'] under
    [re.DOTALL], in four pieces. *)

(** [\*\*File:\s*`([^`]+)`\*\*] *)
Definition marker_re : Re.regex :=
  Re.lits (txt "**File:")
    (Re.Seq (Re.Star Char.isspace)
    (Re.Seq (Re.Lit Char.backtick)
    (Re.Seq (Re.Group 1 (Re.Plus Char.not_backtick))
    (Re.Seq (Re.Lit Char.backtick)
    (Re.Seq (Re.Lit Char.star) (Re.Lit Char.star)))))).

(** [\s*\n```(\w+)?\n] *)
Definition opener_re : Re.regex :=
  Re.Seq (Re.Star Char.isspace)
  (Re.Seq (Re.Lit Char.nl)
  (Re.lits fence
  (Re.Seq (Re.Opt (Re.Group 2 (Re.Plus Char.isword)))
          (Re.Lit Char.nl)))).

(** [(.*?)] *)
Definition body_re : Re.regex := Re.Group 3 (Re.LazyStar Char.any).

(** [\n```] *)
Definition close_re : Re.regex :=
  Re.Seq (Re.Lit Char.nl)
  (Re.Seq (Re.Lit Char.backtick)
  (Re.Seq (Re.Lit Char.backtick) (Re.Lit Char.backtick))).

Definition pattern : Re.regex :=
  Re.Seq marker_re (Re.Seq opener_re (Re.Seq body_re close_re)).

(** [match.group(n)] of a group that took part in the match. *)
Definition group (m : Re.groups) (n : nat) : text := default [] (m n).

(** [match.group(2) or 'text'] *)
Definition group_or (m : Re.groups) (n : nat) (d : text) : text :=
  match m n with
  | Some (c :: l) => c :: l
  | Some [] | None => d
  end.

(** The body of the [for match in matches] loop, with the two
    accumulators [files] and [seen_files]. *)
Fixpoint extract_loop (matches : list Re.groups)
    (files : list FileRecord) (seen_files : gset text) : list FileRecord :=
  match matches with
  | [] => files
  | m :: rest =>
      let filepath := strip (group m 1) in
      let language := group_or m 2 (txt "text") in
      let content := strip (group m 3) in
      if decide (filepath ∈ seen_files)
      then extract_loop rest files seen_files
      else extract_loop rest
             (files ++ [mkFile filepath (Some content) language])
             ({[filepath]} ∪ seen_files)
  end.

Definition extract_files (response : text) : list FileRecord :=
  extract_loop (Re.finditer pattern response) [] ∅.

(** A file block as the model writes it: marker line, opening fence with
    language tag, body, closing fence. *)
Definition block (path lang body : text) : text :=
  txt "**File: `" ++ path ++ txt "`**" ++ [Char.nl] ++ fence ++ lang
    ++ [Char.nl] ++ body ++ [Char.nl] ++ fence.

(** The record that the loop builds from one match. *)
Definition record_of (m : Re.groups) : FileRecord :=
  mkFile (strip (group m 1)) (Some (strip (group m 3)))
    (group_or m 2 (txt "text")).

(** [s.startswith(p)] *)
Fixpoint starts_with (p s : text) : bool :=
  match p, s with
  | [], _ => true
  | a :: p', b :: s' => Ascii.eqb a b && starts_with p' s'
  | _ :: _, [] => false
  end.

(** [p in s] *)
Fixpoint occurs (p s : text) : bool :=
  starts_with p s
  || match s with
     | [] => false
     | _ :: s' => occurs p s'
     end.

(** The closing fence: a newline and three backticks. *)
Definition closing : text := Char.nl :: fence.

(** The shape of a match of [pattern] at the head of [s] that leaves
    [rest]: the grammar of a file block, with the three captures. *)
Definition block_shape (s : text) (g : Re.groups) (rest : text) : Prop :=
  ∃ ws1 path ws2 lang body : text,
    s = txt "**File:" ++ ws1 ++ [Char.backtick] ++ path ++ txt "`**" ++ ws2
          ++ [Char.nl] ++ fence ++ lang ++ [Char.nl] ++ body ++ closing
          ++ rest
    ∧ forallb Char.isspace ws1 = true
    ∧ path ≠ [] ∧ forallb Char.not_backtick path = true
    ∧ forallb Char.isspace ws2 = true
    ∧ forallb Char.isword lang = true
    ∧ g 1 = Some path
    ∧ g 2 = match lang with [] => None | _ => Some lang end
    ∧ g 3 = Some body.

(** The groups of the match of one [block path lang body]. *)
Definition block_groups (path lang body : text) : Re.groups :=
  Re.set_group 3 body
    (match lang with
     | [] => Re.set_group 1 path Re.no_groups
     | _ => Re.set_group 2 lang (Re.set_group 1 path Re.no_groups)
     end).

(** No character of [s] is an asterisk, so no marker starts in [s]. *)
Definition star_free (s : text) : bool :=
  forallb (fun c => negb (Ascii.eqb c Char.star)) s.

(** [record.filepath == p], the test by which records are counted. *)
Definition has_path (p : text) (r : FileRecord) : Prop := filepath r = p.

#[global] Instance has_path_dec p r : Decision (has_path p r).
Proof. unfold has_path. apply _. Defined.

(** A complete file block: a path that is not empty and has no
    backtick, a language tag of word characters (or none), and a body
    that holds no closing fence. *)
Definition file_block_ok (path lang body : text) : bool :=
  match path with [] => false | _ => true end
  && forallb Char.not_backtick path
  && forallb Char.isword lang
  && negb (occurs closing body).

(** The language of the record of a block with tag [lang]. *)
Definition language_or_text (lang : text) : text :=
  match lang with
  | [] => txt "text"
  | _ => lang
  end.

(** [v] is the text of group [n] of a file block of [response]. *)
Definition captured (response : text) (n : nat) (v : text) : Prop :=
  ∃ before s g rest,
    response = before ++ s ∧ block_shape s g rest ∧ g n = Some v.

(** The trimming that the specification describes, written after its
    words and not after the code: "trimmed of one leading and one
    trailing blank/newline but otherwise verbatim". *)
Definition spec_trim_one (body : text) : text :=
  let s :=
    match body with
    | c :: s' => if Ascii.eqb c Char.nl then s' else body
    | [] => []
    end in
  match rev s with
  | c :: s' => if Ascii.eqb c Char.nl then rev s' else s
  | [] => []
  end.

(** Responses used as examples. *)

Definition indented_response : text :=
  block (txt "a.py") (txt "python") (txt "    x = 1").

Definition twice_response : text :=
  block (txt "test.py") (txt "python") (txt "# First version")
  ++ [Char.nl; Char.nl]
  ++ block (txt "test.py") (txt "python") (txt "# Second version").

Definition blank_path_response : text := block (txt " ") [] (txt "x").

(** * The writer *)

(** ** Paths *)

(** A [pathlib.PurePosixPath]: whether it starts at the root, and its
    components.  Empty components and [.] are dropped when a path is
    built from a string; [..] is kept until the path is resolved. *)
Record PurePath : Type := mkPath {
  anchored : bool;
  parts : list text
}.

#[global] Instance PurePath_eq_dec : EqDecision PurePath.
Proof. solve_decision. Defined.

(** [s.split(sep)], with [cur] the component read so far. *)
Fixpoint split_on (sep : ascii) (s cur : text) : list text :=
  match s with
  | [] => [cur]
  | c :: s' =>
      if Ascii.eqb c sep then cur :: split_on sep s' []
      else split_on sep s' (cur ++ [c])
  end.

Definition dot : text := txt ".".
Definition dotdot : text := txt "..".

(** [Path(s)] *)
Definition path_of (s : text) : PurePath :=
  mkPath (starts_with [Char.slash] s)
    (filter (fun p => p ≠ [] ∧ p ≠ dot) (split_on Char.slash s [])).

(** [base_path / filepath]: an absolute right operand replaces the left. *)
Definition truediv (base_path : PurePath) (filepath : text) : PurePath :=
  let p := path_of filepath in
  if anchored p then p
  else mkPath (anchored base_path) (parts base_path ++ parts p).

(** [path.parent] *)
Definition parent (p : PurePath) : PurePath :=
  mkPath (anchored p) (removelast (parts p)).

Fixpoint join (sep : text) (l : list text) : text :=
  match l with
  | [] => []
  | [x] => x
  | x :: l' => x ++ sep ++ join sep l'
  end.

(** [str(path)] *)
Definition str (p : PurePath) : text :=
  match anchored p, parts p with
  | false, [] => dot
  | false, l => join [Char.slash] l
  | true, l => Char.slash :: join [Char.slash] l
  end.

(** ** Exceptions *)

(** The exception classes that the handlers of [write_files] tell
    apart; each constructor stands for the instances of its class that
    belong to no class above it. *)
Inductive exn : Type :=
| PermissionError (detail : text)
| OSError (detail : text)
| ValueError (detail : text)
| OtherException (detail : text).

(** [path.relative_to(other)]: the rest of [path] below [other], or a
    [ValueError] when [path] is not below [other]. *)
Definition relative_to (path other : PurePath) : exn + PurePath :=
  if bool_decide (anchored path = anchored other)
     && bool_decide (parts other `prefix_of` parts path)
  then inr (mkPath false (drop (length (parts other)) (parts path)))
  else inl (ValueError (txt "is not in the subpath of")).

(** ** The filesystem interface *)

(** What [write_files] asks of the host: [Path.resolve],
    [Path.exists], [Path.mkdir(parents=True, exist_ok=True)] and
    [open(path, 'w', encoding='utf-8')] followed by [write].  The first
    two only read.  A file that has just been written exists. *)
Class FileSystem (fs : Type) : Type := mkFileSystem {
  resolve : fs -> PurePath -> exn + PurePath;
  path_exists : fs -> PurePath -> exn + bool;
  mkdir_parents : fs -> PurePath -> fs * (exn + unit);
  write_text : fs -> PurePath -> text -> fs * (exn + unit);
  exists_after_write : forall d p c d',
    write_text d p c = (d', inr tt) -> path_exists d' p = inr true
}.

(** ** The console *)

(** [self.console] is a [rich] console with markup on: what stands
    between square brackets in a printed line is read as a style tag,
    and a closing tag that closes nothing makes [print] raise
    ([rich.errors.MarkupError]) before anything is shown.  The lines of
    this program are f-strings that carry a path, a name or the text of
    an exception into such markup as they are. *)

(** No character of [s] opens a tag. *)
Definition markup_free (s : text) : bool :=
  forallb (fun c => negb (Ascii.eqb c "["%char)) s.

(** The texts that a line carries into its markup. *)
Class Line (L : Type) : Type := interpolated : L -> list text.

Definition plain {L : Type} `{Line L} (l : L) : bool :=
  forallb markup_free (interpolated l).

(** What the program asks of [self.console]: [print_error l] is the
    exception that [print] raises on the line [l], and [None] when the
    line is printed.  A line that carries no opening bracket into its
    markup is printed. *)
Class Console (L : Type) `{Line L} : Type := mkConsole {
  print_error : L -> option exn;
  print_plain : forall l, plain l = true -> print_error l = None
}.

(** The console of the test suite, [Mock(spec=Console)]: its [print]
    returns whatever the line. *)
Definition mock_console {L : Type} `{Line L} : Console L :=
  mkConsole L _ (fun _ => None) (fun _ _ => eq_refl).

(** [rich.errors.MarkupError] *)
Definition MarkupError : exn :=
  OtherException (txt "closing tag doesn't match any open tag").

(** A console that refuses every line that carries an opening bracket
    into its markup.  This is what [rich] does on a line whose only
    such bracket begins a closing tag, as in the path [a[/b].py]. *)
Definition strict_console {L : Type} `{Line L} : Console L.
Proof.
  refine (mkConsole L _ (fun l => if plain l then None else Some MarkupError) _).
  intros l Hl. rewrite Hl. reflexivity.
Defined.

(** ** The writer *)

Inductive Action : Type := Updated | Created.

(** The lines that [write_files] prints on the console. *)
Inductive Notice : Type :=
| SkippingEmptyFilepath
| SecurityEscape (filepath : text)
| SkippedExists (filepath : text)
| SkippingNoContent (filepath : text)
| Done (action : Action) (filepath : text)
| PermissionDenied (filepath : text)
| OSErrorCreating (filepath : text) (e : text)
| ErrorCreating (filepath : text) (e : text).

(** [{filepath}] and [{e}] in the f-strings of these lines. *)
#[global] Instance Notice_line : Line Notice := fun n =>
  match n with
  | SkippingEmptyFilepath => []
  | SecurityEscape p | SkippedExists p | SkippingNoContent p | Done _ p
  | PermissionDenied p => [p]
  | OSErrorCreating p e | ErrorCreating p e => [p; e]
  end.

(** The line that each [except] clause of the loop prints. *)
Definition failure_notice (filepath : text) (e : exn) : Notice :=
  match e with
  | PermissionError _ => PermissionDenied filepath
  | OSError e => OSErrorCreating filepath e
  | ValueError e | OtherException e => ErrorCreating filepath e
  end.

Section Writer.

Context {fs : Type} {FS : FileSystem fs} {C : Console Notice}.

(** What a call of [write_files] changes: the disk, the console and
    the local list [created_files]. *)
Record State : Type := mkState {
  disk : fs;
  console : list Notice;
  created_files : list text
}.

(** Computations that change the state and may raise. *)
Definition M (A : Type) : Type := State -> State * (exn + A).

#[global] Instance M_ret : MRet M := fun A x st => (st, inr x).

#[global] Instance M_bind : MBind M := fun A B f m st =>
  match m st with
  | (st', inr x) => f x st'
  | (st', inl e) => (st', inl e)
  end.

Definition raise {A} (e : exn) : M A := fun st => (st, inl e).

(** [try: m except ...: handler] *)
Definition try_except {A} (m : M A) (handler : exn -> M A) : M A :=
  fun st =>
    match m st with
    | (st', inr x) => (st', inr x)
    | (st', inl e) => handler e st'
    end.

(** The state after the line [n] has been printed. *)
Definition notify (n : Notice) (st : State) : State :=
  mkState (disk st) (console st ++ [n]) (created_files st).

(** [self.console.print(...)]: the line is printed, or the console
    raises and nothing is printed. *)
Definition print (n : Notice) : M unit := fun st =>
  match print_error n with
  | Some e => (st, inl e)
  | None => (notify n st, inr tt)
  end.

(** [created_files.append(s)] *)
Definition append_created (s : text) : M unit := fun st =>
  (mkState (disk st) (console st) (created_files st ++ [s]), inr tt).

(** An operation that only reads the disk. *)
Definition reading {A} (f : fs -> exn + A) : M A := fun st =>
  (st, f (disk st)).

(** An operation that changes the disk. *)
Definition writing {A} (f : fs -> fs * (exn + A)) : M A := fun st =>
  let '(d, r) := f (disk st) in
  (mkState d (console st) (created_files st), r).

Definition lift {A} (r : exn + A) : M A := fun st => (st, r).

Definition truthy (s : text) : bool :=
  match s with
  | [] => false
  | _ => true
  end.

(** The security check of [safe_mode]: [true] when the record is to be
    skipped.  Only a [ValueError] is caught here, and what the [print]
    of the handler raises leaves the check as an exception. *)
Definition escapes (base_path full_path : PurePath) (filepath : text)
  : M bool :=
  try_except
    (b ← reading (fun d => resolve d base_path);
     _ ← lift (relative_to full_path b);
     mret false)
    (fun e =>
       match e with
       | ValueError _ => _ ← print (SecurityEscape filepath); mret true
       | _ => raise e
       end).

(** The body of the [try] statement for one record. *)
Definition try_body (base_path : PurePath) (overwrite safe_mode : bool)
    (file : FileRecord) : M unit :=
  let filepath := filepath file in
  if negb (truthy filepath) || bool_decide (strip filepath = [])
  then print SkippingEmptyFilepath
  else
    full_path ← reading (fun d => resolve d (truediv base_path filepath));
    skip ← (if safe_mode then escapes base_path full_path filepath
            else mret false);
    if skip : bool then mret tt
    else
      present ← reading (fun d => path_exists d full_path);
      if (present : bool) && negb overwrite
      then print (SkippedExists filepath)
      else
        _ ← writing (fun d => mkdir_parents d (parent full_path));
        match content file with
        | None => print (SkippingNoContent filepath)
        | Some content =>
            _ ← writing (fun d => write_text d full_path content);
            _ ← append_created (str full_path);
            present ← reading (fun d => path_exists d full_path);
            let action :=
              if present : bool
              then (if overwrite then Updated else Created)
              else Created in
            print (Done action filepath)
        end.

(** The three [except] clauses: each prints its line, outside of any
    [try], so that what this [print] raises leaves the loop. *)
Definition handler (filepath : text) (e : exn) : M unit :=
  print (failure_notice filepath e).

(** One turn of the [for] loop. *)
Definition write_one (base_path : PurePath) (overwrite safe_mode : bool)
    (file : FileRecord) : M unit :=
  try_except (try_body base_path overwrite safe_mode file)
    (handler (filepath file)).

(** The [for] loop: an exception that leaves a turn ends it. *)
Fixpoint write_loop (base_path : PurePath) (overwrite safe_mode : bool)
    (files : list FileRecord) : M unit :=
  match files with
  | [] => mret tt
  | file :: rest =>
      _ ← write_one base_path overwrite safe_mode file;
      write_loop base_path overwrite safe_mode rest
  end.

(** [write_files(files, base_path, overwrite, safe_mode)] on disk [d]:
    the disk and the console lines afterwards, and the returned list or
    the exception that reaches the caller. *)
Definition write_files (files : list FileRecord) (base_path : PurePath)
    (overwrite safe_mode : bool) (d : fs)
  : fs * list Notice * (exn + list text) :=
  match write_loop base_path overwrite safe_mode files (mkState d [] []) with
  | (st, inr _) => (disk st, console st, inr (created_files st))
  | (st, inl e) => (disk st, console st, inl e)
  end.

End Writer.

Arguments State fs : clear implicits.
Arguments M fs A : clear implicits.

(** ** The [try] body up to its last [print] *)

(** Every path through the [try] body ends in one [print], or in an
    exception of the filesystem before anything is printed. *)
Inductive Ending : Type :=
| Prints (n : Notice)
| Raises (e : exn).

(** The security check up to its [print]: [None] when the path is
    inside the base directory. *)
Definition escape_ending {fs : Type} {FS : FileSystem fs}
    (base_path full_path : PurePath) (filepath : text) (d : fs)
  : option Ending :=
  match resolve d base_path with
  | inl (ValueError _) => Some (Prints (SecurityEscape filepath))
  | inl e => Some (Raises e)
  | inr b =>
      match relative_to full_path b with
      | inl (ValueError _) => Some (Prints (SecurityEscape filepath))
      | inl e => Some (Raises e)
      | inr _ => None
      end
  end.

(** What the [try] body has done to the disk and appended to
    [created_files] when it comes to its last [print] or raises, and how
    it ends.  The console plays no part in it. *)
Definition before_print {fs : Type} {FS : FileSystem fs}
    (base_path : PurePath) (overwrite safe_mode : bool) (file : FileRecord)
    (d : fs) : fs * list text * Ending :=
  let filepath := filepath file in
  if negb (truthy filepath) || bool_decide (strip filepath = [])
  then (d, [], Prints SkippingEmptyFilepath)
  else
    match resolve d (truediv base_path filepath) with
    | inl e => (d, [], Raises e)
    | inr full_path =>
        match (if safe_mode then escape_ending base_path full_path filepath d
               else None) with
        | Some ending => (d, [], ending)
        | None =>
            match path_exists d full_path with
            | inl e => (d, [], Raises e)
            | inr present =>
                if (present : bool) && negb overwrite
                then (d, [], Prints (SkippedExists filepath))
                else
                  match mkdir_parents d (parent full_path) with
                  | (d1, inl e) => (d1, [], Raises e)
                  | (d1, inr _) =>
                      match content file with
                      | None => (d1, [], Prints (SkippingNoContent filepath))
                      | Some content =>
                          match write_text d1 full_path content with
                          | (d2, inl e) => (d2, [], Raises e)
                          | (d2, inr _) =>
                              (d2, [str full_path],
                               Prints (Done (if overwrite then Updated
                                             else Created) filepath))
                          end
                      end
                  end
            end
        end
    end.

(** One turn of the loop from what the [try] body has done: the line is
    printed; or the exception, of the filesystem or of that [print],
    goes to the [except] clause, whose own [print] may raise. *)
Definition finish_turn {fs : Type} {C : Console Notice} (filepath : text)
    (log : list Notice) (created : list text)
    (body : fs * list text * Ending) : State fs * (exn + unit) :=
  let '(d, new, ending) := body in
  let failed (e : exn) :=
    match print_error (failure_notice filepath e) with
    | None =>
        (mkState d (log ++ [failure_notice filepath e]) (created ++ new),
         inr tt)
    | Some e' => (mkState d log (created ++ new), inl e')
    end in
  match ending with
  | Prints n =>
      match print_error n with
      | None => (mkState d (log ++ [n]) (created ++ new), inr tt)
      | Some e => failed e
      end
  | Raises e => failed e
  end.

(** ** A filesystem without symbolic links *)

Module Disk.

(** A directory, or a regular file with its text; [writable] is the
    write permission of the caller. *)
Inductive node : Type :=
| Dir (writable : bool)
| File (writable : bool) (data : text).

(** The working directory and the tree, keyed by absolute paths.  The
    root is a writable directory unless the tree says otherwise. *)
Record t : Type := mk {
  cwd : list text;
  nodes : gmap (list text) node
}.

Definition lookup_node (d : t) (p : list text) : option node :=
  match nodes d !! p, p with
  | None, [] => Some (Dir true)
  | n, _ => n
  end.

Definition put (d : t) (p : list text) (n : node) : t :=
  mk (cwd d) (<[p := n]> (nodes d)).

(** Resolving [..] against the components read so far, in reverse. *)
Fixpoint normalize (todo rev_done : list text) : list text :=
  match todo with
  | [] => rev rev_done
  | name :: todo' =>
      if bool_decide (name = dotdot) then normalize todo' (tail rev_done)
      else normalize todo' (name :: rev_done)
  end.

Definition has_null (p : PurePath) : bool :=
  existsb (existsb (fun c => Ascii.eqb c Ascii.zero)) (parts p).

(** [Path.resolve()]: absolute, without [..]; a null character in the
    path is a [ValueError]. *)
Definition resolve (d : t) (p : PurePath) : exn + PurePath :=
  if has_null p then inl (ValueError (txt "embedded null byte"))
  else
    inr (mkPath true
           (normalize (if anchored p then parts p else cwd d ++ parts p) [])).

Definition path_exists (d : t) (p : PurePath) : exn + bool :=
  inr (bool_decide (is_Some (lookup_node d (parts p)))).

(** Creating the directories [done ++ [name]], ... in turn. *)
Fixpoint mkdir_from (d : t) (done todo : list text) : t * (exn + unit) :=
  match todo with
  | [] => (d, inr tt)
  | name :: todo' =>
      let here := done ++ [name] in
      match lookup_node d here with
      | Some (Dir _) => mkdir_from d here todo'
      | Some (File _ _) => (d, inl (OSError (txt "Not a directory")))
      | None =>
          match lookup_node d done with
          | Some (Dir true) => mkdir_from (put d here (Dir true)) here todo'
          | Some (Dir false) =>
              (d, inl (PermissionError (txt "Permission denied")))
          | _ => (d, inl (OSError (txt "Not a directory")))
          end
      end
  end.

Definition mkdir_parents (d : t) (p : PurePath) : t * (exn + unit) :=
  mkdir_from d [] (parts p).

Definition write_text (d : t) (p : PurePath) (data : text)
  : t * (exn + unit) :=
  match lookup_node d (parts p) with
  | Some (Dir _) => (d, inl (OSError (txt "Is a directory")))
  | Some (File true _) => (put d (parts p) (File true data), inr tt)
  | Some (File false _) =>
      (d, inl (PermissionError (txt "Permission denied")))
  | None =>
      match lookup_node d (removelast (parts p)) with
      | Some (Dir true) => (put d (parts p) (File true data), inr tt)
      | Some (Dir false) =>
          (d, inl (PermissionError (txt "Permission denied")))
      | Some (File _ _) => (d, inl (OSError (txt "Not a directory")))
      | None => (d, inl (OSError (txt "No such file or directory")))
      end
  end.

#[global] Instance file_system : FileSystem t.
Proof.
  refine (mkFileSystem t resolve path_exists mkdir_parents write_text _).
  intros d p c d' Hw. unfold write_text in Hw.
  assert (d' = put d (parts p) (File true c)) as ->
    by (repeat case_match; simplify_eq; reflexivity).
  unfold path_exists, lookup_node, put. simpl.
  by rewrite lookup_insert_eq.
Defined.

End Disk.

(** Disks and records used as examples. *)

Definition project : PurePath := path_of (txt "/project").

Definition etc_evil : PurePath := path_of (txt "/etc/evil").

(** A disk that holds the empty directory [/project] only. *)
Definition project_disk : Disk.t :=
  Disk.put (Disk.mk [] ∅) [txt "project"] (Disk.Dir true).

(** [project_disk] with a directory [/project/locked] that the caller
    may not write to. *)
Definition guarded_disk : Disk.t :=
  Disk.put project_disk [txt "project"; txt "locked"] (Disk.Dir false).

Definition new_file : FileRecord :=
  mkFile (txt "new.py") (Some (txt "x = 1")) (txt "python").

Definition no_content_file : FileRecord :=
  mkFile (txt "a/b/f.txt") None (txt "text").

Definition evil_file : FileRecord :=
  mkFile (txt "../../etc/evil") (Some (txt "boo")) (txt "text").

Definition first_file : FileRecord :=
  mkFile (txt "one.txt") (Some (txt "1")) (txt "text").

Definition locked_file : FileRecord :=
  mkFile (txt "locked/two.txt") (Some (txt "2")) (txt "text").

Definition third_file : FileRecord :=
  mkFile (txt "three.txt") (Some (txt "3")) (txt "text").

(** A record whose path holds a closing tag that nothing opens, and one
    of that kind whose path leaves [/project]. *)
Definition markup_file : FileRecord :=
  mkFile (txt "a[/b].py") (Some (txt "x")) (txt "text").

Definition markup_evil_file : FileRecord :=
  mkFile (txt "../x[/b]") (Some (txt "boo")) (txt "text").

(** * More of the repository *)

(** ** Counting the lines of [write_files] *)
(** A line that reports a written file. *)
Definition is_done (n : Notice) : bool :=
  match n with
  | Done _ _ => true
  | _ => false
  end.

(** The record that a console line is about: every line but the one
    for an empty path names the [filepath] of its record. *)
Definition about (n : Notice) (file : FileRecord) : Prop :=
  match n with
  | SkippingEmptyFilepath =>
      negb (truthy (filepath file))
      || bool_decide (strip (filepath file) = []) = true
  | SecurityEscape p | SkippedExists p | SkippingNoContent p | Done _ p
  | PermissionDenied p | OSErrorCreating p _ | ErrorCreating p _ =>
      p = filepath file
  end.

(** The state that a computation is started in, with [log] and
    [created] put in front of what it has printed and appended. *)
Definition framed {fs : Type} (log : list Notice) (created : list text)
    {A : Type} (res : State fs * (exn + A)) : State fs * (exn + A) :=
  (mkState (disk res.1) (log ++ console res.1)
     (created ++ created_files res.1), res.2).

(** ** Entries of the disk that are kept *)

(** Two entries of the same kind: directories with the same
    permission, or files with the same permission. *)
Definition same_kind (n n' : Disk.node) : Prop :=
  match n, n' with
  | Disk.Dir w, Disk.Dir w' => w = w'
  | Disk.File w _, Disk.File w' _ => w = w'
  | _, _ => False
  end.

(** What [overwrite] allows for an entry that was on the disk: to stay
    as it is, or, with [overwrite] on, to stay of the same kind. *)
Definition kept (overwrite : bool) (n n' : Disk.node) : Prop :=
  if overwrite then same_kind n n' else n = n'.

(** [d'] keeps the working directory and the entries of [d]. *)
Definition keeps (ov : bool) (d d' : Disk.t) : Prop :=
  Disk.cwd d' = Disk.cwd d
  ∧ ∀ p n, Disk.lookup_node d p = Some n →
           ∃ n', Disk.lookup_node d' p = Some n' ∧ kept ov n n'.

(** The directories [done ++ [name]], ... of [todo] all exist. *)
Fixpoint dirs_exist (d : Disk.t) (done todo : list text) : Prop :=
  match todo with
  | [] => True
  | name :: todo' =>
      (∃ w, Disk.lookup_node d (done ++ [name]) = Some (Disk.Dir w))
      ∧ dirs_exist d (done ++ [name]) todo'
  end.

(** [project_disk] with a file [/project/new.py] on it. *)
Definition existing_disk : Disk.t :=
  Disk.put project_disk [txt "project"; txt "new.py"]
    (Disk.File true (txt "old")).

(** ** The automatic write of [ClauseCodeCLI.chat_loop] *)

(** The lines on the console while the files of a response are
    written: the two of [chat_loop] and those of [write_files]. *)
Inductive CliLine : Type :=
| WritingFiles (n : nat)
| FromWriter (n : Notice)
| SuccessfullyCreated (n : nat).

(** The block [if project_folder: ...] of [chat_loop], with the chunks
    of the response in [full_response].  [write_files] is called with
    its defaults, [overwrite=True] and [safe_mode=False], and what it
    raises leaves the block.  The two lines of [chat_loop] carry a
    number and nothing else into their markup. *)
Definition auto_write {fs : Type} {FS : FileSystem fs} {C : Console Notice}
    (project_folder : option PurePath) (full_response : list text) (d : fs)
  : fs * list CliLine * (exn + unit) :=
  match project_folder with
  | None => (d, [], inr tt)
  | Some project_folder =>
      let response_text := concat full_response in
      let files := extract_files response_text in
      match files with
      | [] => (d, [], inr tt)
      | _ :: _ =>
          match write_files files project_folder true false d with
          | (d', log, inr created) =>
              (d',
               WritingFiles (length files) :: map FromWriter log
               ++ match created with
                  | [] => []
                  | _ :: _ => [SuccessfullyCreated (length created)]
                  end,
               inr tt)
          | (d', log, inl e) =>
              (d', WritingFiles (length files) :: map FromWriter log, inl e)
          end
      end
  end.

(** The lines of [write_files] that the automatic write can print. *)
Definition cli_notice (n : Notice) : Prop :=
  match n with
  | SkippingEmptyFilepath | Done Updated _ | PermissionDenied _
  | OSErrorCreating _ _ | ErrorCreating _ _ => True
  | SecurityEscape _ | SkippedExists _ | SkippingNoContent _
  | Done Created _ => False
  end.

(** ** [ClauseCodeCLI.handle_command] *)

(** [str.lower] on one character: the capital letters of the range. *)
Definition lower_char (c : ascii) : ascii :=
  let n := Char.code c in
  if Char.between 65 90 n || Char.between 192 214 n || Char.between 216 222 n
  then ascii_of_nat (n + 32)
  else c.

(** [str.lower] *)
Definition lower (s : text) : text := map lower_char s.

(** The first word of [s]: its characters up to the first whitespace. *)
Fixpoint first_word (s : text) : text :=
  match s with
  | c :: s' => if Char.isspace c then [] else c :: first_word s'
  | [] => []
  end.

(** [s.split(maxsplit=1)]: no piece for a blank [s]; else the first
    word and, when something other than whitespace follows it, the rest
    of [s] without its leading whitespace. *)
Definition split_once (s : text) : list text :=
  match lstrip s with
  | [] => []
  | s1 =>
      let word := first_word s1 in
      match lstrip (drop (length word) s1) with
      | [] => [word]
      | rest => [word; rest]
      end
  end.

(** The lines that [handle_command] itself prints. *)
Inductive HandlerLine : Type :=
| CommandError (e : exn)
| UnknownCommand (cmd_name : text)
| TypeHelpHint.

(** [str(e)] *)
Definition message (e : exn) : text :=
  match e with
  | PermissionError detail | OSError detail | ValueError detail
  | OtherException detail => detail
  end.

(** [{e}] and [{cmd_name}] in the f-strings of these lines. *)
#[global] Instance HandlerLine_line : Line HandlerLine := fun l =>
  match l with
  | CommandError e => [message e]
  | UnknownCommand cmd_name => [cmd_name]
  | TypeHelpHint => []
  end.

(** What a call raises: an [Exception], or a [BaseException] that is
    not one, such as [KeyboardInterrupt], which [except Exception] lets
    through. *)
Inductive raised : Type :=
| Exception (e : exn)
| BaseException (detail : text).

Section Commands.

(** What the commands act on, [self.console] and
    [Command.execute(args)]. *)
Context {S : Type} {C : Console HandlerLine}.

Definition Command : Type := text -> S -> S * (raised + unit).

(** [parts[0]] of an empty list. *)
Definition IndexError : exn :=
  OtherException (txt "list index out of range").

(** [handle_command(command_line)] with the dictionary
    [self.commands]: the state, the lines printed, and [True] to
    continue, [False] to exit, or what is raised.  The [print] of the
    [except] clause and those of the [else] branch are outside of any
    [try]. *)
Definition handle_command (commands : gmap text Command)
    (command_line : text) (s : S)
  : S * list HandlerLine * (raised + bool) :=
  let parts := split_once (drop 1 command_line) in
  match parts with
  | [] => (s, [], inl (Exception IndexError))
  | part0 :: more =>
      let cmd_name := lower part0 in
      let args :=
        match more with
        | part1 :: _ => part1
        | [] => []
        end in
      if bool_decide (cmd_name ∈ [txt "exit"; txt "quit"])
      then (s, [], inr false)
      else
        match commands !! cmd_name with
        | Some command =>
            match command args s with
            | (s', inr _) => (s', [], inr true)
            | (s', inl (Exception e)) =>
                match print_error (CommandError e) with
                | None => (s', [CommandError e], inr true)
                | Some e' => (s', [], inl (Exception e'))
                end
            | (s', inl (BaseException detail)) =>
                (s', [], inl (BaseException detail))
            end
        | None =>
            match print_error (UnknownCommand cmd_name) with
            | Some e' => (s, [], inl (Exception e'))
            | None =>
                match print_error TypeHelpHint with
                | Some e' =>
                    (s, [UnknownCommand cmd_name], inl (Exception e'))
                | None =>
                    (s, [UnknownCommand cmd_name; TypeHelpHint], inr true)
                end
            end
        end
  end.

End Commands.

(** A command that records its arguments, one that raises with its
    arguments as message, and a dictionary with the first as [help]. *)
Definition record_args : @Command (list text) :=
  fun args s => (args :: s, inr tt).

Definition raise_args : @Command (list text) :=
  fun args s => (s, inl (Exception (OtherException args))).

Definition help_only : gmap text (@Command (list text)) :=
  {[ txt "help" := record_args ]}.


(** ** [AdventCommand.execute] *)

Module Advent.

Local Open Scope Z_scope.

(** The dictionary [AdventCommand.CHALLENGES]; the texts are kept as
    the bytes of the source file. *)
Definition CHALLENGES : gmap Z text :=
  list_to_map [
    (1, txt "🎄 Day 1: Create a function that prints a Christmas tree of any height");
    (2, txt "🎁 Day 2: Build a gift list manager with add, remove, and search features");
    (3, txt "⭐ Day 3: Generate a random Christmas carol lyrics line");
    (4, txt "🕯️ Day 4: Create an advent calendar countdown that shows days until Christmas");
    (5, txt "❄️ Day 5: Build a snowflake pattern generator using ASCII art");
    (6, txt "🎅 Day 6: Create a Santa's nice/naughty list classifier");
    (7, txt "🦌 Day 7: Simulate reindeer racing with random speed calculations");
    (8, txt "🔔 Day 8: Build a musical note player that plays 'Jingle Bells'");
    (9, txt "🍪 Day 9: Create a cookie recipe calculator with ingredient scaling");
    (10, txt "🎵 Day 10: Generate Christmas-themed ASCII art banner");
    (11, txt "⛄ Day 11: Build a snowman builder with customizable features");
    (12, txt "🎁 Day 12: Create a secret Santa gift exchange randomizer");
    (13, txt "🌟 Day 13: Build a star constellation display for the night sky");
    (14, txt "🎀 Day 14: Create a gift wrapping calculator for various box sizes");
    (15, txt "🕊️ Day 15: Simulate the 12 Days of Christmas song generator");
    (16, txt "🧦 Day 16: Build a stocking stuffer suggestion generator");
    (17, txt "🏠 Day 17: Create a gingerbread house design planner");
    (18, txt "🎺 Day 18: Build a Christmas light pattern animator");
    (19, txt "📜 Day 19: Create a Christmas story generator with random elements");
    (20, txt "🎪 Day 20: Build a toy workshop inventory management system");
    (21, txt "⛷️ Day 21: Create a winter sports scoreboard tracker");
    (22, txt "🎭 Day 22: Build a Christmas movie recommendation engine");
    (23, txt "🍷 Day 23: Create a holiday recipe collection with search");
    (24, txt "🌙 Day 24: Build a Christmas Eve countdown timer with animations");
    (25, txt "🎄 Day 25: Create a complete Christmas morning surprise simulator!")
  ].

(** The lines that [execute] prints. *)
Inductive Line : Type :=
| OnlyInDecember
| ComeBackInDecember
| AllComplete
| ViewPastHint
| DayBetween1And25
| ValidDayNumber
| Title (day : Z)
| Challenge (challenge : text)
| TipsHeader
| TipDescribe
| TipStepByStep
| TipProject
| Progress (completed : Z)
| MoreToUnlock (remaining : Z).

(** [CHALLENGES[day]] of a missing key. *)
Definition KeyError : exn := OtherException (txt "KeyError").

(** [execute(args)] on the date [now_month], [now_day]; [int] is the
    conversion [int(args)], [None] for a [ValueError]. *)
Definition execute (int : text -> option Z) (now_month now_day : Z)
    (args : text) : exn + list Line :=
  if negb (now_month =? 12) then inr [OnlyInDecember; ComeBackInDecember]
  else
    let '(day, printed) :=
      if 25 <? now_day then (25, [AllComplete; ViewPastHint])
      else (now_day, []) in
    let requested :=
      if truthy args then
        match int args with
        | Some requested_day =>
            if (1 <=? requested_day) && (requested_day <=? 25)
            then inr requested_day
            else inl DayBetween1And25
        | None => inl ValidDayNumber
        end
      else inr day in
    match requested with
    | inl line => inr (printed ++ [line])
    | inr day =>
        match CHALLENGES !! day with
        | None => inl KeyError
        | Some challenge =>
            inr (printed
                 ++ [Title day; Challenge challenge; TipsHeader; TipDescribe;
                     TipStepByStep; TipProject]
                 ++ if truthy args then []
                    else if day <=? 25
                         then Progress (day - 1)
                              :: (if 0 <? 25 - day
                                  then [MoreToUnlock (25 - day)] else [])
                         else [])
        end
    end.

End Advent.

(** What [execute] prints on the 30th of December without arguments. *)
Definition lines_december_30 : list Advent.Line :=
  [Advent.AllComplete; Advent.ViewPastHint; Advent.Title 25;
   Advent.Challenge (default [] (Advent.CHALLENGES !! 25%Z));
   Advent.TipsHeader; Advent.TipDescribe; Advent.TipStepByStep;
   Advent.TipProject; Advent.Progress 24].

(** * Properties of the extractor *)

(** ** [str.strip] *)

Section Strip.

Lemma lstrip_split (s : text) :
  ∃ l, s = l ++ lstrip s ∧ forallb Char.isspace l = true.
Proof.
  induction s as [|c s [l [Hs Hl]]]; simpl.
  - exists []. done.
  - destruct (Char.isspace c) eqn:Hc.
    + exists (c :: l). simpl. rewrite Hc, Hl. split; [by f_equal | done].
    + exists []. done.
Qed.

Lemma lstrip_head (s : text) (c : ascii) :
  head (lstrip s) = Some c → Char.isspace c = false.
Proof.
  induction s as [|a s IH]; simpl; [done|].
  destruct (Char.isspace a) eqn:Ha; [done|].
  simpl. intros [= <-]. done.
Qed.

Lemma lstrip_idem_head (s : text) :
  (∀ c, head s = Some c → Char.isspace c = false) → lstrip s = s.
Proof.
  destruct s as [|a s]; simpl; [done|].
  intros H. by rewrite (H a eq_refl).
Qed.

Lemma forallb_rev (p : ascii → bool) (l : text) :
  forallb p (rev l) = forallb p l.
Proof.
  induction l as [|a l IH]; simpl; [done|].
  rewrite forallb_app, IH. simpl. rewrite andb_true_r. apply andb_comm.
Qed.

Lemma rstrip_split (s : text) :
  ∃ t, s = rstrip s ++ t ∧ forallb Char.isspace t = true.
Proof.
  unfold rstrip. destruct (lstrip_split (rev s)) as [l [Hs Hl]].
  exists (rev l). split.
  - rewrite <- rev_app_distr, <- Hs. by rewrite rev_involutive.
  - by rewrite forallb_rev.
Qed.

Lemma last_rev_head (s : text) : last (rev s) = head s.
Proof. destruct s as [|a s]; simpl; [done|]. by rewrite last_snoc. Qed.

Lemma last_head_rev (s : text) : last s = head (rev s).
Proof. by rewrite <- last_rev_head, rev_involutive. Qed.

Lemma rstrip_last (s : text) (c : ascii) :
  last (rstrip s) = Some c → Char.isspace c = false.
Proof. unfold rstrip. rewrite last_rev_head. apply lstrip_head. Qed.

(** Stripping the right end keeps the first character. *)
Lemma rstrip_head (s : text) (c : ascii) :
  head (rstrip s) = Some c → head s = Some c.
Proof.
  destruct (rstrip_split s) as [t [Hs _]].
  destruct (rstrip s) as [|a r]; simpl; [done|].
  intros [= ->]. by rewrite Hs.
Qed.

Lemma strip_split (s : text) :
  ∃ l t, s = l ++ strip s ++ t
         ∧ forallb Char.isspace l = true ∧ forallb Char.isspace t = true.
Proof.
  destruct (lstrip_split s) as [l [Hs Hl]].
  destruct (rstrip_split (lstrip s)) as [t [Hs' Ht]].
  exists l, t. unfold strip. by rewrite <- Hs', <- Hs.
Qed.

Lemma strip_head (s : text) (c : ascii) :
  head (strip s) = Some c → Char.isspace c = false.
Proof. intros H. apply rstrip_head in H. by apply lstrip_head in H. Qed.

Lemma strip_last (s : text) (c : ascii) :
  last (strip s) = Some c → Char.isspace c = false.
Proof. apply rstrip_last. Qed.

(** A text of whitespace only is stripped to the empty text, and only
    such a text is. *)
Lemma lstrip_nil (s : text) :
  lstrip s = [] ↔ forallb Char.isspace s = true.
Proof.
  induction s as [|a s IH]; simpl; [done|].
  destruct (Char.isspace a); simpl; [done|]. split; done.
Qed.

Lemma strip_nil (s : text) :
  strip s = [] ↔ forallb Char.isspace s = true.
Proof.
  unfold strip, rstrip. split.
  - intros H. apply (f_equal (@rev ascii)) in H.
    rewrite rev_involutive in H. simpl in H.
    apply lstrip_nil in H. rewrite forallb_rev in H.
    destruct (lstrip_split s) as [l [Hs Hl]].
    rewrite Hs, forallb_app, Hl, H. done.
  - intros H. apply lstrip_nil in H. by rewrite H.
Qed.

End Strip.

(** ** The matcher *)

Section Matcher.

Import Re.

Lemma take_consumed (run s : text) :
  take (length (run ++ s) - length s) (run ++ s) = run.
Proof.
  rewrite length_app.
  replace (length run + length s - length s) with (length run) by lia.
  by rewrite take_app_length.
Qed.

Lemma star_greedy_sound p s g k res :
  star_greedy p s g k = Some res →
  ∃ run s', s = run ++ s' ∧ forallb p run = true ∧ k s' g = Some res.
Proof.
  induction s as [|c s IH]; simpl.
  - intros H. exists [], []. done.
  - destruct (p c) eqn:Hc.
    + destruct (star_greedy p s g k) as [r|] eqn:Hs.
      * intros [= <-]. destruct (IH eq_refl) as (run & s' & -> & Hrun & Hk).
        exists (c :: run), s'. simpl. by rewrite Hc, Hrun.
      * intros H. exists [], (c :: s). done.
    + intros H. exists [], (c :: s). done.
Qed.


Lemma star_lazy_sound p s g k res :
  star_lazy p s g k = Some res →
  ∃ run s', s = run ++ s' ∧ forallb p run = true ∧ k s' g = Some res.
Proof.
  induction s as [|c s IH]; simpl.
  - destruct (k [] g) eqn:Hk; [|done]. intros [= <-]. exists [], []. done.
  - destruct (k (c :: s) g) eqn:Hk.
    + intros [= <-]. exists [], (c :: s). done.
    + destruct (p c) eqn:Hc; [|done]. intros H.
      destruct (IH H) as (run & s' & -> & Hrun & Hk').
      exists (c :: run), s'. simpl. by rewrite Hc, Hrun.
Qed.

(** Soundness of the matcher: a successful run has called its
    continuation on a text and groups that [matches] allows. *)
Lemma rmatch_sound r : ∀ s g k res,
  rmatch r s g k = Some res →
  ∃ s' g', matches r s g s' g' ∧ k s' g' = Some res.
Proof.
  induction r as [c|p|p|p|n r IH|r IH|r1 IH1 r2 IH2]; intros s g k res; simpl.
  - destruct s as [|c' s]; [done|].
    destruct (Ascii.eqb c' c) eqn:Hc; [|done].
    apply Ascii.eqb_eq in Hc as ->. intros H. exists s, g. split; [constructor|done].
  - intros H. apply star_greedy_sound in H as (run & s' & -> & Hrun & Hk).
    exists s', g. split; [by constructor|done].
  - destruct s as [|c s]; [done|]. destruct (p c) eqn:Hc; [|done].
    intros H. apply star_greedy_sound in H as (run & s' & -> & Hrun & Hk).
    exists s', g. split; [|done].
    apply (m_plus p (c :: run)); [done|]. simpl. by rewrite Hc, Hrun.
  - intros H. apply star_lazy_sound in H as (run & s' & -> & Hrun & Hk).
    exists s', g. split; [by constructor|done].
  - intros H. apply IH in H as (s' & g' & Hm & Hk).
    eexists _, _. split; [by constructor|done].
  - destruct (rmatch r s g k) as [x|] eqn:Hr.
    + intros [= <-]. apply IH in Hr as (s' & g' & Hm & Hk).
      exists s', g'. split; [by constructor|done].
    + intros H. exists s, g. split; [apply m_opt_none|done].
  - intros H. apply IH1 in H as (s1 & g1 & Hm1 & H).
    apply IH2 in H as (s2 & g2 & Hm2 & Hk).
    exists s2, g2. split; [by econstructor|done].
Qed.

End Matcher.

Section Pattern.

Import Re.

Ltac inv_matches :=
  repeat match goal with
  | H : matches (Seq _ _) _ _ _ _ |- _ => inversion H; clear H; subst
  | H : matches (Lit _) _ _ _ _ |- _ => inversion H; clear H; subst
  | H : matches (Star _) _ _ _ _ |- _ => inversion H; clear H; subst
  | H : matches (Plus _) _ _ _ _ |- _ => inversion H; clear H; subst
  | H : matches (LazyStar _) _ _ _ _ |- _ => inversion H; clear H; subst
  | H : matches (Group _ _) _ _ _ _ |- _ => inversion H; clear H; subst
  | H : matches (Opt _) _ _ _ _ |- _ => inversion H; clear H; subst
  end.

(** Every match of [pattern] has the shape of the grammar. *)
Lemma match_at_shape s g rest :
  match_at pattern s = Some (g, rest) → block_shape s g rest.
Proof.
  unfold match_at. intros H.
  apply rmatch_sound in H as (s' & g' & Hm & [= -> ->]).
  unfold pattern, marker_re, opener_re, body_re, close_re in Hm.
  simpl in Hm.
  inv_matches; rewrite ?take_consumed.
  - match goal with
    | |- block_shape (_ :: _ :: _ :: _ :: _ :: _ :: _ :: ?w1 ++ _ :: ?p
                        ++ _ :: _ :: _ :: ?w2 ++ _ :: _ :: _ :: _ :: ?l
                        ++ _ :: ?b ++ _) _ _ =>
        exists w1, p, w2, l, b
    end.
    repeat split; try done.
    match goal with H : ?l ≠ [] |- set_group 3 _ (set_group 2 ?l _) 2 = _ =>
      by destruct l end.
  - match goal with
    | |- block_shape (_ :: _ :: _ :: _ :: _ :: _ :: _ :: ?w1 ++ _ :: ?p
                        ++ _ :: _ :: _ :: ?w2 ++ _ :: _ :: _ :: _ :: _
                        :: ?b ++ _) _ _ =>
        exists w1, p, w2, [], b
    end.
    repeat split; done.
Qed.

(** A greedy star that can stop after the longest run stops there. *)
Lemma star_greedy_max p run s g k :
  forallb p run = true →
  (∀ c, head s = Some c → p c = false) →
  is_Some (k s g) →
  star_greedy p (run ++ s) g k = k s g.
Proof.
  intros Hrun Hs Hk. induction run as [|c run IH]; simpl in *.
  - destruct s as [|c s]; simpl; [done|]. by rewrite (Hs c eq_refl).
  - apply andb_true_iff in Hrun as [-> Hrun]. rewrite (IH Hrun).
    by destruct Hk as [x ->].
Qed.

(** A lazy star stops at the first place where the rest can match. *)
Lemma star_lazy_min p run s g k :
  forallb p run = true →
  (∀ u v, run = u ++ v → v ≠ [] → k (v ++ s) g = None) →
  is_Some (k s g) →
  star_lazy p (run ++ s) g k = k s g.
Proof.
  intros Hrun Hk [x Hx]. induction run as [|c run IH]; simpl in *.
  - destruct s as [|c s]; simpl; by rewrite Hx.
  - apply andb_true_iff in Hrun as [-> Hrun].
    pose proof (Hk [] (c :: run) eq_refl) as H0. simpl in H0.
    rewrite H0 by done.
    apply IH; [done|]. intros u v -> Hv. by apply (Hk (c :: u) v).
Qed.

Lemma close_re_fails x g k :
  starts_with closing x = false → rmatch close_re x g k = None.
Proof.
  unfold closing, fence, close_re. simpl.
  destruct x as [|c1 [|c2 [|c3 [|c4 x]]]]; simpl;
    repeat (match goal with |- context [Ascii.eqb ?a ?b] => destruct (Ascii.eqb_spec a b); subst; simpl end); try done.
Qed.

Lemma close_re_ok rest g k :
  rmatch close_re (closing ++ rest) g k = k rest g.
Proof. reflexivity. Qed.

Lemma occurs_split p u v : occurs p (u ++ v) = false → starts_with p v = false.
Proof.
  induction u as [|c u IH]; simpl.
  - destruct v; simpl; intros H; apply orb_false_iff in H; tauto.
  - intros H. apply orb_false_iff in H as [_ H]. auto.
Qed.

Lemma starts_with_closing_app v t :
  v ≠ [] → starts_with closing v = false →
  starts_with closing (v ++ closing ++ t) = false.
Proof.
  unfold closing, fence. simpl.
  destruct v as [|c1 [|c2 [|c3 [|c4 v]]]]; simpl; try done; intros _;
  repeat (match goal with |- context [Ascii.eqb ?a ?b] => destruct (Ascii.eqb_spec a b); subst; simpl end); try done.
Qed.

Lemma forallb_any b : forallb Char.any b = true.
Proof. by induction b. Qed.

Lemma body_close_ok b rest g k :
  occurs closing b = false →
  is_Some (k rest (set_group 3 b g)) →
  rmatch (Seq body_re close_re) (b ++ closing ++ rest) g k
  = k rest (set_group 3 b g).
Proof.
  intros Hb Hk. unfold body_re.
  change (star_lazy Char.any (b ++ closing ++ rest) g
    (λ s' g', rmatch close_re s'
       (set_group 3 (take (length (b ++ closing ++ rest) - length s') (b ++ closing ++ rest)) g') k)
    = k rest (set_group 3 b g)).
  rewrite star_lazy_min.
  - cbv beta. rewrite take_consumed. apply close_re_ok.
  - apply forallb_any.
  - intros u v -> Hv. apply close_re_fails.
    apply starts_with_closing_app; [done|]. by apply occurs_split in Hb.
  - cbv beta. by rewrite take_consumed, close_re_ok.
Qed.

Lemma take_len (n : nat) (run s full : text) :
  full = run ++ s → n = length run → take n full = run.
Proof. intros -> ->. by rewrite take_app_length. Qed.

Ltac take_run run :=
  match goal with
  | |- context [take ?n ?s] =>
      replace (take n s) with run
        by (symmetry; eapply take_len;
            [reflexivity | simpl; rewrite ?length_app; simpl; lia])
  end.

Lemma opener_ok lang x g k :
  forallb Char.isword lang = true →
  is_Some (k x match lang with [] => g | _ => set_group 2 lang g end) →
  rmatch opener_re (Char.nl :: fence ++ lang ++ Char.nl :: x) g k
  = k x match lang with [] => g | _ => set_group 2 lang g end.
Proof.
  intros Hl Hk. unfold opener_re, fence. simpl.
  destruct lang as [|c l]; simpl in *.
  - done.
  - apply andb_true_iff in Hl as [-> Hl].
    rewrite star_greedy_max; try done.
    + cbv beta. simpl. take_run (c :: l). by destruct Hk as [? ->].
    + simpl. by intros ? [= <-].
    + cbv beta. simpl. by take_run (c :: l).
Qed.

Lemma marker_ok path y g k :
  path ≠ [] → forallb Char.not_backtick path = true →
  is_Some (k y (set_group 1 path g)) →
  rmatch marker_re (txt "**File: `" ++ path ++ txt "`**" ++ y) g k
  = k y (set_group 1 path g).
Proof.
  intros Hne Hp Hk. unfold marker_re. simpl.
  destruct path as [|c l]; [done|]. simpl in *.
  apply andb_true_iff in Hp as [-> Hp].
  rewrite star_greedy_max; try done.
  - cbv beta. simpl. take_run (c :: l). by destruct Hk as [? ->].
  - simpl. by intros ? [= <-].
  - cbv beta. simpl. by take_run (c :: l).
Qed.

Lemma tail_ok lang body rest g :
  forallb Char.isword lang = true →
  occurs closing body = false →
  rmatch (Seq opener_re (Seq body_re close_re))
    (Char.nl :: fence ++ lang ++ Char.nl :: body ++ closing ++ rest) g
    (fun s' g' => Some (g', s'))
  = Some (set_group 3 body
            match lang with [] => g | _ => set_group 2 lang g end, rest).
Proof.
  intros Hl Hb.
  assert (∀ g0, rmatch (Seq body_re close_re) (body ++ closing ++ rest) g0
                  (fun s' g' => Some (g', s'))
                = Some (set_group 3 body g0, rest)) as E3.
  { intros g0. by rewrite body_close_ok. }
  cbn [rmatch]. rewrite opener_ok; [apply E3|done|].
  cbn [rmatch] in E3. by rewrite E3.
Qed.

Lemma match_at_block path lang body rest :
  path ≠ [] → forallb Char.not_backtick path = true →
  forallb Char.isword lang = true →
  occurs closing body = false →
  match_at pattern (block path lang body ++ rest)
  = Some (block_groups path lang body, rest).
Proof.
  intros Hne Hp Hl Hb.
  pose proof (tail_ok lang body rest (set_group 1 path no_groups) Hl Hb) as E.
  unfold match_at, pattern. cbn [rmatch] in *.
  assert (block path lang body ++ rest
          = txt "**File: `" ++ path ++ txt "`**"
              ++ (Char.nl :: fence ++ lang ++ Char.nl :: body ++ closing ++ rest))
    as ->.
  { unfold block, closing. by rewrite <- !app_assoc. }
  rewrite marker_ok; [done..|]. by rewrite E.
Qed.

Lemma match_at_no_star s :
  (∀ c, head s = Some c → c ≠ Char.star) → match_at pattern s = None.
Proof.
  intros H. destruct s as [|c s]; [done|].
  unfold match_at, pattern, marker_re. simpl.
  destruct (Ascii.eqb_spec c "*"); [|done].
  by destruct (H c eq_refl).
Qed.

Lemma finditer_from_skip r a s :
  finditer_from r (length a) (a ++ s) = finditer_from r 0 s.
Proof. induction a as [|c a IH]; [done|]. simpl. apply IH. Qed.

Lemma finditer_star_free pre s :
  star_free pre = true → finditer pattern (pre ++ s) = finditer pattern s.
Proof.
  unfold finditer. induction pre as [|c pre IH]; [done|].
  simpl. intros H. apply andb_true_iff in H as [Hc H].
  rewrite match_at_no_star.
  - by apply IH.
  - simpl. intros ? [= <-] ->. done.
Qed.

Lemma finditer_nil : finditer pattern [] = [].
Proof. reflexivity. Qed.

Lemma finditer_block path lang body rest :
  path ≠ [] → forallb Char.not_backtick path = true →
  forallb Char.isword lang = true →
  occurs closing body = false →
  finditer pattern (block path lang body ++ rest)
  = block_groups path lang body :: finditer pattern rest.
Proof.
  intros Hne Hp Hl Hb. unfold finditer.
  pose proof (match_at_block path lang body rest Hne Hp Hl Hb) as E.
  destruct (block path lang body) as [|c bl] eqn:Hblk; [done|].
  change ((c :: bl) ++ rest) with (c :: (bl ++ rest)) in *.
  cbn [finditer_from]. rewrite E. f_equal.
  replace (length (c :: bl ++ rest) - length rest - 1) with (length bl).
  - apply finditer_from_skip.
  - simpl. rewrite length_app. lia.
Qed.

End Pattern.

(** ** The loop of [extract_files] *)

Section Loop.

(** The loop only appends, and what it appends are records of matches. *)
Lemma extract_loop_app ms : ∀ files seen,
  ∃ more, extract_loop ms files seen = files ++ more
          ∧ ∀ r, r ∈ more → ∃ m, m ∈ ms ∧ r = record_of m.
Proof.
  induction ms as [|m ms IH]; intros files seen; cbn [extract_loop].
  - exists []. split; [by rewrite app_nil_r|].
    intros r Hr. by apply elem_of_nil in Hr.
  - case_decide.
    + destruct (IH files seen) as (more & -> & Hmore).
      exists more. split; [done|]. intros r Hr.
      destruct (Hmore r Hr) as (m' & Hm' & ->).
      exists m'. split; [by right|done].
    + change (mkFile _ _ _) with (record_of m).
      destruct (IH (files ++ [record_of m]) ({[strip (group m 1)]} ∪ seen))
        as (more & -> & Hmore).
      eexists (_ :: more). split; [by rewrite <- app_assoc|].
      intros r Hr. apply elem_of_cons in Hr as [->|Hr].
      * exists m. split; [by left|done].
      * destruct (Hmore r Hr) as (m' & Hm' & ->).
        exists m'. split; [by right|done].
Qed.

Lemma extract_files_from_match response r :
  r ∈ extract_files response →
  ∃ m, m ∈ Re.finditer pattern response ∧ r = record_of m.
Proof.
  unfold extract_files. intros Hr.
  destruct (extract_loop_app (Re.finditer pattern response) [] ∅)
    as (more & E & Hmore).
  rewrite E in Hr. by apply Hmore.
Qed.

(** The records with path [p] that the loop returns: those it started
    with and, unless [p] was seen before, the first match with [p]. *)
Lemma extract_loop_filter p ms : ∀ files seen,
  filter (has_path p) (extract_loop ms files seen)
  = filter (has_path p) files
    ++ (if decide (p ∈ seen) then []
        else take 1 (filter (has_path p) (map record_of ms))).
Proof.
  induction ms as [|m ms IH]; intros files seen;
    cbn [extract_loop map]; try change (mkFile _ _ _) with (record_of m).
  - rewrite filter_nil. simpl. case_decide; by rewrite app_nil_r.
  - destruct (decide (strip (group m 1) ∈ seen)) as [Hin|Hin].
    + rewrite IH. f_equal. case_decide; [done|].
      rewrite filter_cons_False; [done|].
      unfold has_path, record_of. simpl. intros <-. done.
    + rewrite IH, filter_app. rewrite <- app_assoc. f_equal.
      destruct (decide (strip (group m 1) = p)) as [<-|Hne].
      * rewrite decide_True
          by (apply elem_of_union; left; by apply elem_of_singleton).
        rewrite decide_False by done.
        rewrite !filter_cons_True by done. by rewrite filter_nil.
      * rewrite !(filter_cons_False _ (record_of m)) by done.
        rewrite filter_nil. cbn [app].
        destruct (decide (p ∈ seen)) as [Hp|Hp].
        -- rewrite decide_True; [done|]. apply elem_of_union. by right.
        -- rewrite decide_False; [done|].
           intros H. apply elem_of_union in H as [H|H]; [|done].
           apply elem_of_singleton in H. congruence.
Qed.

Lemma extract_loop_two m1 m2 :
  extract_loop [m1; m2] [] ∅
  = if decide (filepath (record_of m1) = filepath (record_of m2))
    then [record_of m1] else [record_of m1; record_of m2].
Proof.
  cbn [extract_loop]. unfold record_of. cbn [filepath].
  rewrite decide_False by apply not_elem_of_empty.
  destruct (decide (strip (group m1 1) = strip (group m2 1))) as [E|E].
  - rewrite decide_True; [done|].
    apply elem_of_union. left. by apply elem_of_singleton.
  - rewrite decide_False; [done|].
    intros H. apply elem_of_union in H as [H|H].
    + by apply elem_of_singleton in H.
    + by apply not_elem_of_empty in H.
Qed.

End Loop.

(** ** From matches to records *)

Section Records.

(** Every match that [finditer] reports is a match at some place of the
    text. *)
Lemma finditer_from_matches r s : ∀ skip m,
  m ∈ Re.finditer_from r skip s →
  ∃ pre s1 rest, s = pre ++ s1 ∧ Re.match_at r s1 = Some (m, rest).
Proof.
  induction s as [|c s IH]; intros skip m.
  - destruct skip; simpl; [|by intros H; apply elem_of_nil in H].
    destruct (Re.match_at r []) as [[g rest]|] eqn:E; simpl.
    + intros H. apply list_elem_of_singleton in H as ->.
      exists [], [], rest. done.
    + by intros H; apply elem_of_nil in H.
  - destruct skip as [|n]; cbn [Re.finditer_from].
    + destruct (Re.match_at r (c :: s)) as [[g rest]|] eqn:E.
      * intros H. apply elem_of_cons in H as [->|H].
        -- exists [], (c :: s), rest. done.
        -- apply IH in H as (pre & s1 & rest' & -> & E').
           exists (c :: pre), s1, rest'. done.
      * intros H. apply IH in H as (pre & s1 & rest' & -> & E').
        exists (c :: pre), s1, rest'. done.
    + intros H. apply IH in H as (pre & s1 & rest' & -> & E').
      exists (c :: pre), s1, rest'. done.
Qed.

Lemma file_block_ok_spec path lang body :
  file_block_ok path lang body = true →
  path ≠ [] ∧ forallb Char.not_backtick path = true
  ∧ forallb Char.isword lang = true ∧ occurs closing body = false.
Proof.
  unfold file_block_ok. intros H.
  repeat (apply andb_true_iff in H as [H ?]).
  repeat split; try done.
  - by destruct path.
  - by apply negb_true_iff.
Qed.

(** Two complete blocks among text without asterisks: two matches. *)
Lemma finditer_two_blocks pre p1 l1 b1 sep p2 l2 b2 post :
  star_free pre = true → star_free sep = true → star_free post = true →
  file_block_ok p1 l1 b1 = true → file_block_ok p2 l2 b2 = true →
  Re.finditer pattern
    (pre ++ block p1 l1 b1 ++ sep ++ block p2 l2 b2 ++ post)
  = [block_groups p1 l1 b1; block_groups p2 l2 b2].
Proof.
  intros Hpre Hsep Hpost H1 H2.
  apply file_block_ok_spec in H1 as (? & ? & ? & ?).
  apply file_block_ok_spec in H2 as (? & ? & ? & ?).
  rewrite finditer_star_free, finditer_block by done.
  rewrite finditer_star_free, finditer_block by done.
  rewrite <- (app_nil_r post), finditer_star_free by done.
  done.
Qed.

Lemma record_of_block path lang body :
  record_of (block_groups path lang body)
  = mkFile (strip path) (Some (strip body)) (language_or_text lang).
Proof. unfold record_of, block_groups. by destruct lang. Qed.

(** Every record comes from a file block of the response: its path and
    content are the stripped captures 1 and 3 of that block. *)
Lemma record_captured response r :
  r ∈ extract_files response →
  ∃ path body,
    captured response 1 path ∧ captured response 3 body
    ∧ path ≠ [] ∧ forallb Char.not_backtick path = true
    ∧ filepath r = strip path ∧ content r = Some (strip body).
Proof.
  intros Hr. apply extract_files_from_match in Hr as (m & Hm & ->).
  apply finditer_from_matches in Hm as (before & s & rest & -> & Hs).
  apply match_at_shape in Hs.
  pose proof Hs as (ws1 & path & ws2 & lang & body & _ & _ & Hne & Hp & _ & _
                    & H1 & _ & H3).
  exists path, body. unfold record_of, group. simpl. rewrite H1, H3.
  repeat split; try done; by exists before, s, m, rest.
Qed.

End Records.

(** ** The nearest closing fence *)

Section Nearest.

Import Re.

(** A lazy star has stopped at the first place where the rest matched. *)
Lemma star_lazy_first p s g k res :
  star_lazy p s g k = Some res →
  ∃ run s', s = run ++ s' ∧ forallb p run = true ∧ k s' g = Some res
            ∧ ∀ u v, run = u ++ v → v ≠ [] → k (v ++ s') g = None.
Proof.
  induction s as [|c s IH]; simpl.
  - destruct (k [] g) eqn:Hk; [|done]. intros [= <-]. exists [], [].
    repeat split; try done. intros u v Huv Hv.
    by destruct u, v.
  - destruct (k (c :: s) g) eqn:Hk.
    + intros [= <-]. exists [], (c :: s).
      repeat split; try done. intros u v Huv Hv. by destruct u, v.
    + destruct (p c) eqn:Hc; [|done]. intros H.
      destruct (IH H) as (run & s' & -> & Hrun & Hk' & Hmin).
      exists (c :: run), s'. simpl. rewrite Hc, Hrun.
      repeat split; try done. intros u v Huv Hv.
      destruct u as [|c' u]; simpl in Huv.
      * subst v. exact Hk.
      * injection Huv as _ Huv. by apply Hmin with u.
Qed.

Lemma starts_with_closing_inv x :
  starts_with closing x = true → ∃ rest, x = closing ++ rest.
Proof.
  unfold closing, fence, txt. cbn [list_ascii_of_string starts_with].
  destruct x as [|c1 [|c2 [|c3 [|c4 x]]]]; cbn [starts_with];
    rewrite ?andb_false_r; try done.
  intros H. repeat (apply andb_true_iff in H as [?%Ascii.eqb_eq H]).
  subst. by exists x.
Qed.

Lemma close_re_inv x g res :
  rmatch close_re x g (fun s' g' => Some (g', s')) = Some res →
  ∃ rest, x = closing ++ rest ∧ res = (g, rest).
Proof.
  intros H. destruct (starts_with closing x) eqn:Hx.
  - apply starts_with_closing_inv in Hx as [rest ->].
    rewrite close_re_ok in H. injection H as <-. by exists rest.
  - by rewrite close_re_fails in H.
Qed.

Lemma starts_with_app_l p v t :
  starts_with p v = true → starts_with p (v ++ t) = true.
Proof.
  revert v. induction p as [|a p IH]; intros v; [done|].
  destruct v as [|b v]; simpl; [done|].
  intros H. apply andb_true_iff in H as [-> H]. by apply IH.
Qed.

(** No closing fence begins in [run] when none begins at any of its
    places once the rest of the text is put after it. *)
Lemma no_fence_inside run s' :
  (∀ u v, run = u ++ v → v ≠ [] → starts_with closing (v ++ s') = false) →
  occurs closing run = false.
Proof.
  induction run as [|c run IH]; intros H; [done|].
  cbn [occurs]. apply orb_false_iff. split.
  - destruct (starts_with closing (c :: run)) eqn:E; [|done].
    apply (starts_with_app_l _ _ s') in E.
    by rewrite (H [] (c :: run)) in E.
  - apply IH. intros u v -> Hv. by apply (H (c :: u) v).
Qed.

(** The body of a match ends at the nearest closing fence: it holds
    none. *)
Lemma match_at_nearest_fence s g rest body :
  match_at pattern s = Some (g, rest) → g 3 = Some body →
  occurs closing body = false.
Proof.
  unfold match_at, pattern. cbn [rmatch]. intros H.
  apply rmatch_sound in H as (s1 & g1 & _ & H).
  apply rmatch_sound in H as (s2 & g2 & _ & H).
  unfold body_re in H. cbn [rmatch] in H.
  apply star_lazy_first in H as (run & s' & -> & _ & Hk & Hmin).
  cbv beta in Hk. rewrite take_consumed in Hk.
  apply close_re_inv in Hk as (rest' & -> & [= -> ->]).
  unfold set_group. cbn [Nat.eqb]. intros [= <-].
  apply (no_fence_inside run (closing ++ rest')).
  intros u v Huv Hv. specialize (Hmin u v Huv Hv). cbv beta in Hmin.
  destruct (starts_with closing (v ++ closing ++ rest')) eqn:E; [|done].
  apply starts_with_closing_inv in E as [rest2 E].
  rewrite E, close_re_ok in Hmin. done.
Qed.

(** The first element that a filter lets through. *)
Lemma filter_map_first {A B : Type} (P : B → Prop) `{∀ x, Decision (P x)}
    (f : A → B) (l : list A) (x : B) (later : list B) :
  filter P (map f l) = x :: later →
  ∃ l1 a l2, l = l1 ++ a :: l2 ∧ f a = x ∧ Forall (fun a' => ¬ P (f a')) l1.
Proof.
  induction l as [|a l IH]; [done|]. cbn [map].
  destruct (decide (P (f a))) as [Ha|Ha].
  - rewrite filter_cons_True by done. intros [= <- _].
    by exists [], a, l.
  - rewrite filter_cons_False by done. intros Hl.
    destruct (IH Hl) as (l1 & a' & l2 & -> & <- & Hl1).
    exists (a :: l1), a', l2. split; [done|]. split; [done|]. by constructor.
Qed.

(** A record is the record of the first match that has its path. *)
Lemma record_first_match response r :
  r ∈ extract_files response →
  ∃ earlier m later,
    finditer pattern response = earlier ++ m :: later
    ∧ r = record_of m
    ∧ Forall (fun m' => strip (group m' 1) ≠ filepath r) earlier.
Proof.
  intros Hr.
  assert (r ∈ filter (has_path (filepath r)) (extract_files response)) as Hf
    by (by apply list_elem_of_filter).
  unfold extract_files in Hf. rewrite extract_loop_filter, filter_nil in Hf.
  rewrite decide_False in Hf by apply not_elem_of_empty. cbn [app] in Hf.
  destruct (filter (has_path (filepath r))
              (map record_of (finditer pattern response)))
    as [|x later] eqn:E; [by apply elem_of_nil in Hf|].
  cbn [take] in Hf. apply list_elem_of_singleton in Hf as <-.
  apply filter_map_first in E as (l1 & m & l2 & E & Hm & Hl1).
  exists l1, m, l2. repeat split; [done|done|].
  eapply Forall_impl; [exact Hl1|]. intros m' Hm'. exact Hm'.
Qed.

End Nearest.

(** ** The tests of the repository, on the model *)

Example test_extract_single_file :
  extract_files
    ([Char.nl] ++ txt "Here's your code:" ++ [Char.nl; Char.nl]
     ++ block (txt "hello.py") (txt "python")
          (txt "def hello():" ++ [Char.nl] ++ txt "    return 1")
     ++ [Char.nl; Char.nl] ++ txt "That's it!" ++ [Char.nl])
  = [mkFile (txt "hello.py")
       (Some (txt "def hello():" ++ [Char.nl] ++ txt "    return 1"))
       (txt "python")].
Proof. vm_compute. reflexivity. Qed.

Example test_extract_no_language_specified :
  extract_files
    ([Char.nl] ++ block (txt "data.txt") [] (txt "Some plain text content")
     ++ [Char.nl])
  = [mkFile (txt "data.txt") (Some (txt "Some plain text content"))
       (txt "text")].
Proof. vm_compute. reflexivity. Qed.

Example test_extract_no_files :
  extract_files (txt "Just some text without any file markers") = [].
Proof. vm_compute. reflexivity. Qed.

Example test_extract_duplicate_files :
  extract_files twice_response
  = [mkFile (txt "test.py") (Some (txt "# First version")) (txt "python")].
Proof. vm_compute. reflexivity. Qed.

(** A marker without a fence after it is no match. *)
Example marker_without_fence :
  extract_files (txt "**File: `a.py`**" ++ [Char.nl] ++ txt "no fence") = [].
Proof. vm_compute. reflexivity. Qed.

(** ** The claims about the extractor *)

(** C1, as the specification states it, fails: a body whose first line
    begins with four spaces loses them, where trimming one newline at
    each end would keep them. *)
Lemma extract_keeps_indentation_fails :
  ¬ (∀ r, r ∈ extract_files indented_response →
          content r = Some (spec_trim_one (txt "    x = 1"))).
Proof.
  intros H.
  specialize (H (mkFile (txt "a.py") (Some (txt "x = 1")) (txt "python"))).
  assert (extract_files indented_response
          = [mkFile (txt "a.py") (Some (txt "x = 1")) (txt "python")]) as E
    by (vm_compute; reflexivity).
  rewrite E in H. specialize (H ltac:(by left)).
  vm_compute in H. discriminate.
Qed.

(** C1, amended: every record [r] is the record of one match [m] of
    the pattern, the first in document order whose stripped path is the
    path of [r].  That match is a file block at some place of the
    response; its body is the text between the opening fence and the
    nearest closing fence (it holds no closing fence), and the content
    of [r] is this body with all leading and all trailing whitespace
    removed ([str.strip]): the body is the content between two runs of
    whitespace, and the content neither begins nor ends with a
    whitespace character.  What lies between is kept verbatim. *)
Theorem extract_content_is_stripped_body response r :
  r ∈ extract_files response →
  ∃ earlier m later before s rest body l t,
    Re.finditer pattern response = earlier ++ m :: later
    ∧ Forall (fun m' => strip (group m' 1) ≠ filepath r) earlier
    ∧ r = record_of m
    ∧ response = before ++ s
    ∧ Re.match_at pattern s = Some (m, rest)
    ∧ block_shape s m rest
    ∧ m 3 = Some body
    ∧ occurs closing body = false
    ∧ content r = Some (strip body)
    ∧ body = l ++ strip body ++ t
    ∧ forallb Char.isspace l = true ∧ forallb Char.isspace t = true
    ∧ (∀ c, head (strip body) = Some c → Char.isspace c = false)
    ∧ (∀ c, last (strip body) = Some c → Char.isspace c = false).
Proof.
  intros Hr.
  apply record_first_match in Hr as (earlier & m & later & Hms & -> & Hfirst).
  assert (m ∈ Re.finditer pattern response) as Hm.
  { rewrite Hms. apply elem_of_app. right. by left. }
  apply finditer_from_matches in Hm as (before & s & rest & -> & Hs).
  pose proof (match_at_shape _ _ _ Hs) as Hshape.
  pose proof Hshape as (ws1 & path & ws2 & lang & body & _ & _ & _ & _ & _ & _
                        & _ & _ & H3).
  destruct (strip_split body) as (l & t & Hsplit & Hl & Ht).
  exists earlier, m, later, before, s, rest, body, l, t.
  repeat split; try done.
  - by apply (match_at_nearest_fence s m rest).
  - unfold record_of, group. simpl. by rewrite H3.
  - apply strip_head.
  - apply strip_last.
Qed.

Lemma extract_content_is_stripped_body_witness :
  mkFile (txt "a.py") (Some (txt "x = 1")) (txt "python")
    ∈ extract_files indented_response
  ∧ ∃ earlier m later before s rest body l t,
      Re.finditer pattern indented_response = earlier ++ m :: later
      ∧ Forall (fun m' => strip (group m' 1) ≠ txt "a.py") earlier
      ∧ mkFile (txt "a.py") (Some (txt "x = 1")) (txt "python") = record_of m
      ∧ indented_response = before ++ s
      ∧ Re.match_at pattern s = Some (m, rest)
      ∧ block_shape s m rest
      ∧ m 3 = Some body
      ∧ occurs closing body = false
      ∧ Some (txt "x = 1") = Some (strip body)
      ∧ body = l ++ strip body ++ t
      ∧ forallb Char.isspace l = true ∧ forallb Char.isspace t = true
      ∧ (∀ c, head (strip body) = Some c → Char.isspace c = false)
      ∧ (∀ c, last (strip body) = Some c → Char.isspace c = false).
Proof.
  assert (mkFile (txt "a.py") (Some (txt "x = 1")) (txt "python")
            ∈ extract_files indented_response) as H
    by (vm_compute; left).
  split; [exact H|].
  exact (extract_content_is_stripped_body indented_response _ H).
Defined.

(** C5: when the matches of a response hold the path [p] two times or
    more, the extractor returns exactly one record with path [p], and
    it is the record of the first of these matches; the later ones are
    nowhere in the output. *)
Theorem duplicate_path_first_wins response p first later :
  filter (has_path p) (map record_of (Re.finditer pattern response))
    = first :: later →
  later ≠ [] →
  filter (has_path p) (extract_files response) = [first].
Proof.
  intros Hocc _. unfold extract_files.
  rewrite extract_loop_filter, Hocc, filter_nil.
  by rewrite decide_False by apply not_elem_of_empty.
Qed.

Lemma duplicate_path_first_wins_witness :
  filter (has_path (txt "test.py"))
    (map record_of (Re.finditer pattern twice_response))
  = [mkFile (txt "test.py") (Some (txt "# First version")) (txt "python");
     mkFile (txt "test.py") (Some (txt "# Second version")) (txt "python")]
  ∧ filter (has_path (txt "test.py")) (extract_files twice_response)
    = [mkFile (txt "test.py") (Some (txt "# First version")) (txt "python")].
Proof.
  assert (filter (has_path (txt "test.py"))
            (map record_of (Re.finditer pattern twice_response))
          = [mkFile (txt "test.py") (Some (txt "# First version"))
               (txt "python");
             mkFile (txt "test.py") (Some (txt "# Second version"))
               (txt "python")]) as H
    by (vm_compute; reflexivity).
  split; [exact H|].
  apply (duplicate_path_first_wins twice_response (txt "test.py") _ _ H).
  discriminate.
Defined.

(** C6: two complete file blocks with distinct paths, one after the
    other (with text free of asterisks before, between and after them),
    give exactly two records, and the content of each is its own
    stripped body: the capture of the first stops at the nearest closing
    fence. *)
Theorem two_blocks_two_records pre p1 l1 b1 sep p2 l2 b2 post :
  star_free pre = true → star_free sep = true → star_free post = true →
  file_block_ok p1 l1 b1 = true → file_block_ok p2 l2 b2 = true →
  strip p1 ≠ strip p2 →
  extract_files (pre ++ block p1 l1 b1 ++ sep ++ block p2 l2 b2 ++ post)
  = [mkFile (strip p1) (Some (strip b1)) (language_or_text l1);
     mkFile (strip p2) (Some (strip b2)) (language_or_text l2)].
Proof.
  intros Hpre Hsep Hpost H1 H2 Hne. unfold extract_files.
  rewrite finditer_two_blocks, extract_loop_two, !record_of_block by done.
  by rewrite decide_False.
Qed.

Lemma two_blocks_two_records_witness :
  extract_files
    ([Char.nl] ++ block (txt "main.py") (txt "python")
                    (txt "from utils import helper")
     ++ [Char.nl; Char.nl]
     ++ block (txt "utils.py") (txt "python")
          (txt "def helper():" ++ [Char.nl] ++ txt "    pass")
     ++ [Char.nl])
  = [mkFile (strip (txt "main.py"))
       (Some (strip (txt "from utils import helper")))
       (language_or_text (txt "python"));
     mkFile (strip (txt "utils.py"))
       (Some (strip (txt "def helper():" ++ [Char.nl] ++ txt "    pass")))
       (language_or_text (txt "python"))].
Proof.
  apply two_blocks_two_records; try reflexivity.
  vm_compute. discriminate.
Defined.

(** C8, as the specification states it, fails: a marker whose backticks
    hold one space gives a record with the empty path. *)
Lemma extract_nonempty_path_fails :
  ¬ (∀ r, r ∈ extract_files blank_path_response → filepath r ≠ []).
Proof.
  intros H. apply (H (mkFile [] (Some (txt "x")) (txt "text"))).
  - vm_compute. left.
  - reflexivity.
Qed.

(** C8, amended: the path of every record is the text between the
    backticks of a marker, which is not empty and has no backtick,
    stripped of surrounding whitespace; the path is empty exactly when
    that text is whitespace only. *)
Theorem extract_path_is_stripped_capture response r :
  r ∈ extract_files response →
  ∃ path,
    captured response 1 path
    ∧ path ≠ [] ∧ forallb Char.not_backtick path = true
    ∧ filepath r = strip path
    ∧ (filepath r = [] ↔ forallb Char.isspace path = true).
Proof.
  intros Hr.
  apply record_captured in Hr as (path & body & Hp & _ & Hne & Hbt & Hf & _).
  exists path. repeat split; try done; rewrite Hf; apply strip_nil.
Qed.

Lemma extract_path_is_stripped_capture_witness :
  mkFile [] (Some (txt "x")) (txt "text") ∈ extract_files blank_path_response
  ∧ ∃ path,
      captured blank_path_response 1 path
      ∧ path ≠ [] ∧ forallb Char.not_backtick path = true
      ∧ ([] : text) = strip path
      ∧ (([] : text) = [] ↔ forallb Char.isspace path = true).
Proof.
  assert (mkFile [] (Some (txt "x")) (txt "text")
            ∈ extract_files blank_path_response) as H
    by (vm_compute; left).
  split; [exact H|].
  exact (extract_path_is_stripped_capture blank_path_response _ H).
Defined.

(** C9: the content of every record neither begins nor ends with a
    whitespace character. *)
Theorem extract_content_no_edge_space response r :
  r ∈ extract_files response →
  ∃ c, content r = Some c
       ∧ (∀ x, head c = Some x → Char.isspace x = false)
       ∧ (∀ x, last c = Some x → Char.isspace x = false).
Proof.
  intros Hr.
  apply record_captured in Hr as (path & body & _ & _ & _ & _ & _ & Hc).
  exists (strip body). split; [done|]. split.
  - apply strip_head.
  - apply strip_last.
Qed.

Lemma extract_content_no_edge_space_witness :
  mkFile (txt "a.py") (Some (txt "x = 1")) (txt "python")
    ∈ extract_files indented_response
  ∧ ∃ c, Some (txt "x = 1") = Some c
         ∧ (∀ x, head c = Some x → Char.isspace x = false)
         ∧ (∀ x, last c = Some x → Char.isspace x = false).
Proof.
  assert (mkFile (txt "a.py") (Some (txt "x = 1")) (txt "python")
            ∈ extract_files indented_response) as H
    by (vm_compute; left).
  split; [exact H|].
  exact (extract_content_no_edge_space indented_response _ H).
Defined.

(** C10: two complete file blocks whose marker paths are equal once
    stripped give a single record, that of the first block. *)
Theorem same_stripped_path_one_record pre p1 l1 b1 sep p2 l2 b2 post :
  star_free pre = true → star_free sep = true → star_free post = true →
  file_block_ok p1 l1 b1 = true → file_block_ok p2 l2 b2 = true →
  strip p1 = strip p2 →
  extract_files (pre ++ block p1 l1 b1 ++ sep ++ block p2 l2 b2 ++ post)
  = [mkFile (strip p1) (Some (strip b1)) (language_or_text l1)].
Proof.
  intros Hpre Hsep Hpost H1 H2 Heq. unfold extract_files.
  rewrite finditer_two_blocks, extract_loop_two, !record_of_block by done.
  by rewrite decide_True.
Qed.

Lemma same_stripped_path_one_record_witness :
  extract_files
    ([] ++ block (txt "app.py") (txt "python") (txt "first")
     ++ [Char.nl]
     ++ block (txt " app.py ") (txt "python") (txt "second") ++ [])
  = [mkFile (strip (txt "app.py")) (Some (strip (txt "first")))
       (language_or_text (txt "python"))].
Proof.
  apply same_stripped_path_one_record; reflexivity.
Defined.

(** * Properties of the writer *)

(** ** The disk *)

Section DiskFacts.

Lemma disk_lookup_put d p n : Disk.lookup_node (Disk.put d p n) p = Some n.
Proof.
  unfold Disk.lookup_node, Disk.put. simpl. by rewrite lookup_insert_eq.
Qed.

Lemma disk_write_text_ok d p c d' :
  Disk.write_text d p c = (d', inr tt) →
  d' = Disk.put d (parts p) (Disk.File true c).
Proof.
  intros Hw. unfold Disk.write_text in Hw.
  repeat case_match; simplify_eq; reflexivity.
Qed.

End DiskFacts.

(** ** One turn of the loop, on any filesystem and any console *)

Section WriterFacts.

Context {fs : Type} {FS : FileSystem fs} {C : Console Notice}.

Implicit Types (st : State fs) (r : FileRecord).

Ltac run_M :=
  unfold mbind, mret, M_bind, M_ret, try_except, raise, reading,
    writing, lift, append_created, handler in *.

Lemma print_printed n st :
  print_error n = None → print n st = (notify n st, inr tt).
Proof. unfold print. by intros ->. Qed.

Lemma print_raises n e st :
  print_error n = Some e → print n st = (st, inl e).
Proof. unfold print. by intros ->. Qed.

Lemma escapes_ending base full fp st :
  escapes base full fp st
  = match escape_ending base full fp (disk st) with
    | None => (st, inr false)
    | Some (Prints n) =>
        match print_error n with
        | None => (notify n st, inr true)
        | Some e => (st, inl e)
        end
    | Some (Raises e) => (st, inl e)
    end.
Proof.
  unfold escapes, escape_ending, print. run_M.
  destruct (resolve (disk st) base) as [e|b]; simpl.
  - destruct e; simpl; try done; by destruct (print_error _).
  - destruct (relative_to full b) as [e|?]; simpl; [|done].
    destruct e; simpl; try done; by destruct (print_error _).
Qed.

(** The [try] body is what it does before its last [print], and that
    [print]. *)
Lemma try_body_before_print base ov sm r st :
  try_body base ov sm r st
  = let '(d, new, ending) := before_print base ov sm r (disk st) in
    let st1 := mkState d (console st) (created_files st ++ new) in
    match ending with
    | Prints n => print n st1
    | Raises e => (st1, inl e)
    end.
Proof.
  destruct st as [d log created].
  unfold try_body, before_print. cbn [disk console created_files].
  destruct (negb (truthy (filepath r)) || bool_decide (strip (filepath r) = []));
    [by rewrite app_nil_r|].
  run_M. cbn [disk console created_files].
  destruct (resolve d (truediv base (filepath r))) as [e0|full];
    [by rewrite app_nil_r|].
  assert ((if sm then escapes base full (filepath r)
           else (fun st => (st, inr false))) (mkState d log created)
          = match (if sm then escape_ending base full (filepath r) d
                   else None) with
            | None => (mkState d log created, inr false)
            | Some (Prints n) =>
                match print_error n with
                | None => (notify n (mkState d log created), inr true)
                | Some e => (mkState d log created, inl e)
                end
            | Some (Raises e) => (mkState d log created, inl e)
            end) as ->.
  { destruct sm; [apply escapes_ending|done]. }
  destruct (if sm then escape_ending base full (filepath r) d else None)
    as [[n|e0]|].
  { unfold print, notify. cbn [disk console created_files].
    rewrite app_nil_r. by destruct (print_error n). }
  { by rewrite app_nil_r. }
  cbn [disk console created_files].
  destruct (path_exists d full) as [e0|present]; [by rewrite app_nil_r|].
  destruct (present && negb ov); [by rewrite app_nil_r|].
  simpl.
  destruct (mkdir_parents d (parent full)) as [d1 [e0|[]]];
    simpl; [by rewrite app_nil_r|].
  destruct (content r) as [c|]; [|by rewrite app_nil_r].
  simpl. destruct (write_text d1 full c) as [d2 [e0|[]]] eqn:Ew;
    simpl; [by rewrite app_nil_r|].
  by rewrite (exists_after_write _ _ _ _ Ew).
Qed.

(** One turn of the loop is [finish_turn] of what the [try] body has
    done. *)
Lemma write_one_before_print base ov sm r st :
  write_one base ov sm r st
  = finish_turn (filepath r) (console st) (created_files st)
      (before_print base ov sm r (disk st)).
Proof.
  unfold write_one, try_except. rewrite try_body_before_print.
  destruct (before_print base ov sm r (disk st)) as [[d new] ending].
  unfold finish_turn, handler, print, notify.
  cbn [disk console created_files].
  destruct ending as [n|e]; [destruct (print_error n)|]; try done.
Qed.

Lemma write_loop_cons base ov sm r rest st :
  write_loop base ov sm (r :: rest) st
  = match write_one base ov sm r st with
    | (st1, inr _) => write_loop base ov sm rest st1
    | (st1, inl e) => (st1, inl e)
    end.
Proof. reflexivity. Qed.

Lemma write_files_single r base ov sm (d : fs) :
  write_files [r] base ov sm d
  = match finish_turn (filepath r) [] [] (before_print base ov sm r d) with
    | (st, inr _) => (disk st, console st, inr (created_files st))
    | (st, inl e) => (disk st, console st, inl e)
    end.
Proof.
  unfold write_files. rewrite write_loop_cons, write_one_before_print.
  cbn [disk console created_files].
  by destruct (finish_turn _ _ _ _) as [st [e|[]]].
Qed.

(** The three ways in which the [try] body comes to its end: a line
    that reports no file, and no new entry; the line that reports the
    file, and its entry; or an exception of the filesystem, and no new
    entry. *)
Lemma before_print_cases base ov sm r (d : fs) :
  (∃ d' n, before_print base ov sm r d = (d', [], Prints n)
           ∧ is_done n = false ∧ about n r)
  ∨ (∃ d' full,
       before_print base ov sm r d
       = (d', [str full],
          Prints (Done (if ov then Updated else Created) (filepath r))))
  ∨ (∃ d' e, before_print base ov sm r d = (d', [], Raises e)).
Proof.
  unfold before_print, escape_ending.
  destruct (negb (truthy (filepath r)) || bool_decide (strip (filepath r) = []))
    eqn:Hblank.
  { left. by exists d, SkippingEmptyFilepath. }
  repeat case_match; simplify_eq;
    first [ by (left; eexists _, _)
          | by (right; left; eexists _, _)
          | by (right; right; eexists _, _) ].
Qed.

Lemma failure_notice_not_done fp e : is_done (failure_notice fp e) = false.
Proof. by destruct e. Qed.

Lemma failure_notice_about r e : about (failure_notice (filepath r) e) r.
Proof. by destruct e. Qed.

(** One turn of the loop: at most one new entry; when the turn ends
    without an exception it has printed exactly one line, about its
    record, and a line that reports a file has its entry. *)
Lemma write_one_step base ov sm r st st' res :
  write_one base ov sm r st = (st', res) →
  ∃ new,
    created_files st' = created_files st ++ new ∧ length new ≤ 1
    ∧ match res with
      | inr _ =>
          ∃ n, console st' = console st ++ [n] ∧ about n r
               ∧ (is_done n = true → length new = 1)
               ∧ ((∀ a, print_error (Done a (filepath r)) = None) →
                  length new = if is_done n then 1 else 0)
      | inl _ =>
          console st' = console st
          ∧ ((∀ a, print_error (Done a (filepath r)) = None) →
             length new = 0)
      end.
Proof.
  rewrite write_one_before_print.
  assert (∀ d new e,
    (new = [] ∨ ∃ p a, new = [p] ∧ print_error (Done a (filepath r)) = Some e) →
    match print_error (failure_notice (filepath r) e) with
    | None =>
        (mkState d (console st ++ [failure_notice (filepath r) e])
           (created_files st ++ new), inr tt)
    | Some e' => (mkState d (console st) (created_files st ++ new), inl e')
    end = (st', res) →
    ∃ new,
      created_files st' = created_files st ++ new ∧ length new ≤ 1
      ∧ match res with
        | inr _ =>
            ∃ n, console st' = console st ++ [n] ∧ about n r
                 ∧ (is_done n = true → length new = 1)
                 ∧ ((∀ a, print_error (Done a (filepath r)) = None) →
                    length new = if is_done n then 1 else 0)
        | inl _ =>
            console st' = console st
            ∧ ((∀ a, print_error (Done a (filepath r)) = None) →
               length new = 0)
        end) as Hfailed.
  { intros d new e Hnew.
    assert (length new ≤ 1) as Hlen
      by (destruct Hnew as [->|(p & a & -> & _)]; simpl; lia).
    assert ((∀ a, print_error (Done a (filepath r)) = None) → length new = 0)
      as Hall.
    { intros Hall. destruct Hnew as [->|(p & a & -> & Hp)]; [done|].
      by rewrite Hall in Hp. }
    destruct (print_error (failure_notice (filepath r) e)) as [e'|];
      intros [= <- <-]; exists new; cbn [created_files console];
      (split; [done|]); (split; [done|]).
    - done.
    - exists (failure_notice (filepath r) e).
      rewrite failure_notice_not_done.
      repeat split; try done. apply failure_notice_about. }
  destruct (before_print_cases base ov sm r (disk st))
    as [(d' & n & -> & Hn & Ha)|[(d' & full & ->)|(d' & e & ->)]];
    unfold finish_turn.
  - destruct (print_error n) as [e|]; [apply Hfailed; by left|].
    intros [= <- <-]. exists []. cbn [created_files console length].
    split; [done|]. split; [lia|].
    exists n. rewrite Hn. by repeat split.
  - destruct (print_error (Done (if ov then Updated else Created) (filepath r)))
      as [e|] eqn:Hprint; [apply Hfailed; right; by eexists _, _|].
    intros [= <- <-]. exists [str full]. cbn [created_files console length].
    split; [done|]. split; [lia|].
    exists (Done (if ov then Updated else Created) (filepath r)).
    by repeat split.
  - apply Hfailed. by left.
Qed.

(** The loop as a whole: the lines are about the records, in order, up
    to the record at which an exception has left the loop; every line
    that reports a file has its entry in [created_files]. *)
Lemma write_loop_steps base ov sm files : ∀ st st' res,
  write_loop base ov sm files st = (st', res) →
  ∃ log new,
    console st' = console st ++ log
    ∧ created_files st' = created_files st ++ new
    ∧ length (filter is_done log) ≤ length new
    ∧ length new ≤ length files
    ∧ ((∀ r a, r ∈ files → print_error (Done a (filepath r)) = None) →
       length new = length (filter is_done log))
    ∧ match res with
      | inr _ => Forall2 about log files
      | inl _ =>
          ∃ printed rest,
            files = printed ++ rest ∧ rest ≠ [] ∧ Forall2 about log printed
      end.
Proof.
  induction files as [|r rest IH]; intros st st' res.
  - intros [= <- <-]. exists [], []. rewrite !app_nil_r.
    repeat split; try done.
  - rewrite write_loop_cons.
    destruct (write_one base ov sm r st) as [st1 [e|[]]] eqn:Hone;
      apply write_one_step in Hone as (new & Hnew & Hlen & Hres).
    + destruct Hres as [Hlog Hall1].
      intros [= <- <-]. exists [], new. rewrite app_nil_r, filter_nil.
      cbn [length]. split; [done|]. split; [done|]. split; [lia|].
      split; [lia|]. split.
      * intros Hall. apply Hall1. intros a. apply Hall. by left.
      * exists [], (r :: rest). split; [done|]. split; [done|constructor].
    + destruct Hres as (n & Hlog & Ha & Hdone & Hall1).
      intros Hrest. apply IH in Hrest
        as (log & new' & Hlog' & Hnew' & Hle & Hlen' & Hall' & Hres').
      exists (n :: log), (new ++ new').
      rewrite Hlog', Hnew', Hlog, Hnew, <- !app_assoc.
      split; [done|]. split; [done|].
      rewrite length_app. cbn [length].
      assert (length (filter is_done (n :: log))
              = (if is_done n then 1 else 0) + length (filter is_done log))
        as ->.
      { destruct (is_done n) eqn:E.
        - by rewrite filter_cons_True by (rewrite E; exact I).
        - by rewrite filter_cons_False by (rewrite E; simpl; tauto). }
      split; [destruct (is_done n); [rewrite Hdone by done|]; lia|].
      split; [lia|]. split.
      * intros Hall. rewrite Hall1, Hall'; [done| |].
        -- intros r' a Hr'. apply Hall. by right.
        -- intros a. apply Hall. by left.
      * destruct res as [e|[]].
        -- destruct Hres' as (printed & rest' & -> & Hne & Hp).
           exists (r :: printed), rest'. repeat split; try done.
           by constructor.
        -- by constructor.
Qed.

End WriterFacts.

(** ** Lines that every console prints *)

Section Plain.

Context {fs : Type} {FS : FileSystem fs} (C : Console Notice).

(** A batch whose lines, on a console that prints every line, carry
    no opening bracket into their markup goes the same way on every
    console. *)
Lemma write_loop_plain base ov sm files : ∀ st : State fs,
  forallb plain
    (console (write_loop (C := mock_console) base ov sm files st).1) = true →
  write_loop (C := C) base ov sm files st
  = write_loop (C := mock_console) base ov sm files st.
Proof.
  induction files as [|r rest IH]; intros st; [done|].
  rewrite !write_loop_cons, !write_one_before_print.
  destruct (before_print base ov sm r (disk st)) as [[d new] ending].
  assert (∀ n,
    forallb plain
      (console (write_loop (C := mock_console) base ov sm rest
                  (mkState d (console st ++ [n]) (created_files st ++ new))).1)
      = true →
    print_error (Console := C) n = None) as Hn.
  { intros n H.
    destruct (write_loop (C := mock_console) base ov sm rest
                (mkState d (console st ++ [n]) (created_files st ++ new)))
      as [st' res] eqn:E.
    apply (write_loop_steps (C := mock_console)) in E
      as (log & _ & Hlog & _).
    cbn [fst console] in *. rewrite Hlog, !forallb_app in H.
    cbn [forallb] in H.
    apply andb_true_iff in H as [H _]. apply andb_true_iff in H as [_ H].
    apply andb_true_iff in H as [H _]. by apply print_plain. }
  unfold finish_turn. cbn [print_error mock_console].
  destruct ending as [n|e]; intros H.
  - rewrite (Hn n H). by apply IH.
  - rewrite (Hn _ H). by apply IH.
Qed.

Lemma write_files_plain files base ov sm (d : fs) :
  forallb plain (write_files (C := mock_console) files base ov sm d).1.2
    = true →
  write_files (C := C) files base ov sm d
  = write_files (C := mock_console) files base ov sm d.
Proof.
  unfold write_files. intros H. rewrite write_loop_plain; [done|].
  by destruct (write_loop (C := mock_console) base ov sm files
                 (mkState d [] [])) as [st [e|[]]].
Qed.

End Plain.

(** ** Paths of whitespace *)

Section BlankPaths.

Lemma isspace_plain c :
  Char.isspace c = true →
  c ≠ Char.slash ∧ c ≠ "."%char ∧ Ascii.eqb c Ascii.zero = false.
Proof.
  destruct c as [[] [] [] [] [] [] [] []]; vm_compute; intros; try done.
Qed.

Lemma split_on_spaces s : ∀ cur,
  forallb Char.isspace s = true → split_on Char.slash s cur = [cur ++ s].
Proof.
  induction s as [|c s IH]; intros cur; simpl.
  - by rewrite app_nil_r.
  - intros Hs. apply andb_true_iff in Hs as [Hc Hs].
    apply isspace_plain in Hc as (Hc & _ & _).
    destruct (Ascii.eqb_spec c Char.slash); [done|].
    rewrite IH by done. by rewrite <- app_assoc.
Qed.

(** A path of whitespace only is one component, or none. *)
Lemma path_of_spaces s :
  forallb Char.isspace s = true →
  path_of s = mkPath false (match s with [] => [] | _ => [s] end).
Proof.
  intros Hs. unfold path_of. rewrite split_on_spaces by done.
  rewrite app_nil_l.
  destruct s as [|c s].
  - by rewrite filter_cons_False by (by intros [? _]).
  - simpl in Hs. apply andb_true_iff in Hs as [Hc Hs].
    apply isspace_plain in Hc as (Hc & Hd & _).
    f_equal.
    + cbn [starts_with anchored]. apply andb_false_iff. left.
      apply Ascii.eqb_neq. congruence.
    + rewrite filter_cons_True; [done|]. split; [done|].
      unfold dot. simpl. congruence.
Qed.

Lemma normalize_snoc todo y : ∀ acc,
  y ≠ dotdot →
  Disk.normalize (todo ++ [y]) acc = Disk.normalize todo acc ++ [y].
Proof.
  induction todo as [|x todo IH]; intros acc Hy; simpl.
  - by rewrite bool_decide_eq_false_2.
  - case_bool_decide; by apply IH.
Qed.

Lemma has_null_snoc a l y :
  Disk.has_null (mkPath a (l ++ [y]))
  = Disk.has_null (mkPath a l) || existsb (fun c => Ascii.eqb c Ascii.zero) y.
Proof.
  unfold Disk.has_null. simpl. rewrite existsb_app. simpl.
  by rewrite orb_false_r.
Qed.

Lemma spaces_no_null s :
  forallb Char.isspace s = true →
  existsb (fun c => Ascii.eqb c Ascii.zero) s = false.
Proof.
  induction s as [|c s IH]; simpl; [done|].
  intros Hs. apply andb_true_iff in Hs as [Hc Hs].
  apply isspace_plain in Hc as (_ & _ & ->). by apply IH.
Qed.

Lemma relative_to_self p : anchored p = true →
  ∃ q, relative_to p p = inr q.
Proof.
  intros Hp. unfold relative_to.
  rewrite !bool_decide_eq_true_2 by done. by eexists.
Qed.

(** Without symbolic links, a blank [filepath] stays below the base
    directory. *)
Lemma blank_stays_inside d base fp full b :
  negb (truthy fp) || bool_decide (strip fp = []) = true →
  Disk.resolve d (truediv base fp) = inr full →
  Disk.resolve d base = inr b →
  ∃ q, relative_to full b = inr q.
Proof.
  intros Hblank Hfull Hb.
  assert (forallb Char.isspace fp = true) as Hs.
  { apply orb_true_iff in Hblank as [Hn|Hn].
    - by destruct fp.
    - apply bool_decide_eq_true in Hn. by apply strip_nil. }
  unfold truediv in Hfull. rewrite path_of_spaces in Hfull by done.
  simpl in Hfull.
  unfold Disk.resolve in *.
  destruct (Disk.has_null base) eqn:Hnb; [done|]. injection Hb as <-.
  destruct fp as [|c fp].
  - rewrite app_nil_r in Hfull.
    replace (mkPath (anchored base) (parts base)) with base in Hfull
      by (by destruct base).
    rewrite Hnb in Hfull. injection Hfull as <-.
    by apply relative_to_self.
  - rewrite has_null_snoc in Hfull.
    replace (Disk.has_null (mkPath (anchored base) (parts base)))
      with (Disk.has_null base) in Hfull by (by destruct base).
    rewrite Hnb, spaces_no_null in Hfull by done.
    simpl in Hfull. injection Hfull as <-.
    assert (c :: fp ≠ dotdot) as Hdd.
    { simpl in Hs. apply andb_true_iff in Hs as [Hc _].
      apply isspace_plain in Hc as (_ & Hc & _). unfold dotdot. simpl.
      congruence. }
    unfold relative_to. simpl. eexists.
    rewrite bool_decide_eq_true_2; [done|].
    destruct (anchored base).
    + rewrite normalize_snoc by done. by eexists.
    + rewrite app_assoc, normalize_snoc by done. by eexists.
Qed.

End BlankPaths.

(** ** Containment *)

Section Containment.

Context {C : Console Notice}.

Lemma relative_to_error full b e :
  relative_to full b = inl e → ∃ detail, e = ValueError detail.
Proof. unfold relative_to. case_match; [done|]. intros [= <-]. by eexists. Qed.

(** A record that resolves outside the base directory comes to the
    security line with nothing done. *)
Lemma before_print_escape base ov r full b e (d : Disk.t) :
  Disk.resolve d (truediv base (filepath r)) = inr full →
  Disk.resolve d base = inr b →
  relative_to full b = inl e →
  before_print base ov true r d = (d, [], Prints (SecurityEscape (filepath r))).
Proof.
  intros Hfull Hb Hout. unfold before_print.
  destruct (negb (truthy (filepath r)) || bool_decide (strip (filepath r) = []))
    eqn:Hblank.
  { destruct (blank_stays_inside _ _ _ _ _ Hblank Hfull Hb) as [q Hq].
    congruence. }
  destruct (relative_to_error _ _ _ Hout) as [detail ->].
  unfold escape_ending. simpl. by rewrite Hfull, Hb, Hout.
Qed.

Lemma not_blank_outside base r full b e (d : Disk.t) :
  Disk.resolve d (truediv base (filepath r)) = inr full →
  Disk.resolve d base = inr b →
  relative_to full b = inl e →
  negb (truthy (filepath r)) || bool_decide (strip (filepath r) = []) = false.
Proof.
  intros Hfull Hb Hout.
  destruct (negb _ || _) eqn:Hblank; [|done].
  destruct (blank_stays_inside _ _ _ _ _ Hblank Hfull Hb) as [q Hq].
  congruence.
Qed.

End Containment.

Section Writes.

Context {fs : Type} {FS : FileSystem fs}.

(** A record that is written to the end: the action of its line
    depends on [overwrite] alone. *)
Lemma before_print_writes base ov r (d : fs) full present d1 c d2 :
  negb (truthy (filepath r)) || bool_decide (strip (filepath r) = []) = false →
  resolve d (truediv base (filepath r)) = inr full →
  path_exists d full = inr present →
  present && negb ov = false →
  mkdir_parents d (parent full) = (d1, inr tt) →
  content r = Some c →
  write_text d1 full c = (d2, inr tt) →
  before_print base ov false r d
  = (d2, [str full],
     Prints (Done (if ov then Updated else Created) (filepath r))).
Proof.
  intros Hblank Hfull Hpresent Hskip Hmk Hc Hw.
  unfold before_print. by rewrite Hblank, Hfull, Hpresent, Hskip, Hmk, Hc, Hw.
Qed.

End Writes.

(** ** The claims that the code breaks *)

(** C2: on a disk that holds the empty directory [/project] only,
    [new.py] does not exist before the write, and [write_files] with
    [overwrite] on writes it and reports it as [Updated], whatever the
    console. *)
Theorem new_file_reported_updated {C : Console Notice} :
  path_exists project_disk (path_of (txt "/project/new.py")) = inr false
  ∧ write_files [new_file] project true false project_disk
    = (Disk.put project_disk [txt "project"; txt "new.py"]
         (Disk.File true (txt "x = 1")),
       [Done Updated (txt "new.py")], inr [txt "/project/new.py"]).
Proof.
  split; [vm_compute; reflexivity|].
  rewrite (write_files_plain C) by (vm_compute; reflexivity).
  vm_compute. reflexivity.
Qed.

(** C4: on the same disk, a record without content is skipped, yet the
    directories [/project/a] and [/project/a/b] of its path, which did
    not exist, exist after the call, whatever the console. *)
Theorem no_content_creates_directories {C : Console Notice} :
  let '(d, log, res) :=
    write_files [no_content_file] project true false project_disk in
  log = [SkippingNoContent (txt "a/b/f.txt")] ∧ res = inr []
  ∧ Disk.lookup_node project_disk [txt "project"; txt "a"] = None
  ∧ Disk.lookup_node project_disk [txt "project"; txt "a"; txt "b"] = None
  ∧ Disk.lookup_node d [txt "project"; txt "a"] = Some (Disk.Dir true)
  ∧ Disk.lookup_node d [txt "project"; txt "a"; txt "b"]
    = Some (Disk.Dir true).
Proof.
  rewrite (write_files_plain C) by (vm_compute; reflexivity).
  vm_compute. done.
Qed.

(** C3 fails on the program for a path that carries markup: on a disk
    without symbolic links and with [safe_mode] on, take a record whose
    path resolves outside the resolved base directory, and a console
    that refuses the security line of this path and then the error
    line of this path.  The [print] of the security line raises inside
    the clause [except ValueError]; the clause [except Exception] of
    the loop prints the path again and raises in its turn; and
    [write_files] ends with this exception: nothing is printed, no list
    is returned, and the records that follow are not looked at.  The
    disk is as it was. *)
Theorem escape_line_markup_raises {C : Console Notice} d base r rest ov
    full b e e1 e2 :
  Disk.resolve d (truediv base (filepath r)) = inr full →
  Disk.resolve d base = inr b →
  relative_to full b = inl e →
  print_error (SecurityEscape (filepath r)) = Some e1 →
  print_error (failure_notice (filepath r) e1) = Some e2 →
  write_files (r :: rest) base ov true d = (d, [], inl e2).
Proof.
  intros Hfull Hb Hout H1 H2.
  unfold write_files. rewrite write_loop_cons, write_one_before_print.
  cbn [disk console created_files].
  rewrite (before_print_escape base ov r full b e d Hfull Hb Hout).
  unfold finish_turn. by rewrite H1, H2.
Qed.

Lemma escape_line_markup_raises_witness :
  write_files (C := strict_console) [markup_evil_file; new_file] project true
    true project_disk
  = (project_disk, [], inl MarkupError).
Proof.
  apply (escape_line_markup_raises (C := strict_console) project_disk project
           markup_evil_file [new_file] true
           (mkPath true [txt "x["; txt "b]"]) project
           (ValueError (txt "is not in the subpath of"))
           MarkupError MarkupError);
    vm_compute; reflexivity.
Defined.

(** C7 fails on the program for a path that carries markup: take a
    record that is written to the end, and a console that refuses its
    success line.  The file is on the disk and its path is in
    [created_files] when that [print] raises.  When the console refuses
    the error line of this path as well, the exception leaves the
    [except] clause and [write_files]: nothing is printed, no list is
    returned, the records that follow are not looked at.  When the
    console prints the error line, the record is reported as an error
    and its path is in the returned list all the same. *)
Theorem markup_path_defeats_handlers {fs : Type} {FS : FileSystem fs}
    {C : Console Notice} base ov r (d : fs) full present d1 c d2 e1 :
  negb (truthy (filepath r)) || bool_decide (strip (filepath r) = []) = false →
  resolve d (truediv base (filepath r)) = inr full →
  path_exists d full = inr present →
  present && negb ov = false →
  mkdir_parents d (parent full) = (d1, inr tt) →
  content r = Some c →
  write_text d1 full c = (d2, inr tt) →
  print_error (Done (if ov then Updated else Created) (filepath r)) = Some e1 →
  match print_error (failure_notice (filepath r) e1) with
  | Some e2 =>
      ∀ rest, write_files (r :: rest) base ov false d = (d2, [], inl e2)
  | None =>
      write_files [r] base ov false d
      = (d2, [failure_notice (filepath r) e1], inr [str full])
  end.
Proof.
  intros Hblank Hfull Hpresent Hskip Hmk Hc Hw H1.
  pose proof (before_print_writes base ov r d full present d1 c d2 Hblank
                Hfull Hpresent Hskip Hmk Hc Hw) as Hbody.
  destruct (print_error (failure_notice (filepath r) e1)) as [e2|] eqn:H2.
  - intros rest. unfold write_files.
    rewrite write_loop_cons, write_one_before_print.
    cbn [disk console created_files]. rewrite Hbody.
    unfold finish_turn. by rewrite H1, H2.
  - rewrite write_files_single, Hbody. unfold finish_turn.
    by rewrite H1, H2.
Qed.

Lemma markup_path_defeats_handlers_witness :
  write_files (C := strict_console) [markup_file; new_file] project true false
    project_disk
  = (Disk.put
       (Disk.put project_disk [txt "project"; txt "a["] (Disk.Dir true))
       [txt "project"; txt "a["; txt "b].py"] (Disk.File true (txt "x")),
     [], inl MarkupError).
Proof.
  exact (markup_path_defeats_handlers (C := strict_console) project true
           markup_file project_disk
           (mkPath true [txt "project"; txt "a["; txt "b].py"]) false
           (Disk.put project_disk [txt "project"; txt "a["] (Disk.Dir true))
           (txt "x")
           (Disk.put
              (Disk.put project_disk [txt "project"; txt "a["] (Disk.Dir true))
              [txt "project"; txt "a["; txt "b].py"]
              (Disk.File true (txt "x")))
           MarkupError eq_refl eq_refl eq_refl eq_refl eq_refl eq_refl eq_refl
           eq_refl [new_file]).
Defined.

(** ** The tests of the repository, on the model *)

(** The batch of the specification: the second of three records meets
    a directory that may not be written to. *)
Example partial_failure_isolation {C : Console Notice} :
  let '(d, log, res) :=
    write_files [first_file; locked_file; third_file] project false false
      guarded_disk in
  log = [Done Created (txt "one.txt");
         PermissionDenied (txt "locked/two.txt");
         Done Created (txt "three.txt")]
  ∧ res = inr [txt "/project/one.txt"; txt "/project/three.txt"]
  ∧ Disk.lookup_node d [txt "project"; txt "locked"; txt "two.txt"] = None
  ∧ Disk.lookup_node d [txt "project"; txt "three.txt"]
    = Some (Disk.File true (txt "3")).
Proof.
  rewrite (write_files_plain C) by (vm_compute; reflexivity).
  vm_compute. done.
Qed.

Example test_write_nested_file {C : Console Notice} :
  let '(d, log, res) :=
    write_files [mkFile (txt "src/lib/module.py") (Some (txt "# Module"))
                   (txt "python")] project true false project_disk in
  res = inr [txt "/project/src/lib/module.py"]
  ∧ Disk.lookup_node d [txt "project"; txt "src"; txt "lib"; txt "module.py"]
    = Some (Disk.File true (txt "# Module")).
Proof.
  rewrite (write_files_plain C) by (vm_compute; reflexivity).
  vm_compute. done.
Qed.

Example test_write_files_error_handling {C : Console Notice} :
  write_files [mkFile (txt "invalid" ++ [Ascii.zero] ++ txt "path.txt")
                 (Some (txt "content")) (txt "text")]
    project true false project_disk
  = (project_disk,
     [ErrorCreating (txt "invalid" ++ [Ascii.zero] ++ txt "path.txt")
        (txt "embedded null byte")],
     inr []).
Proof.
  rewrite (write_files_plain C) by (vm_compute; reflexivity).
  vm_compute. reflexivity.
Qed.

(** The two consoles on the record [a[/b].py]: the mock of the tests
    prints its success line; the strict console refuses it, and the
    error line after it. *)
Example markup_file_on_two_consoles :
  write_files (C := mock_console) [markup_file] project true false project_disk
  = (Disk.put
       (Disk.put project_disk [txt "project"; txt "a["] (Disk.Dir true))
       [txt "project"; txt "a["; txt "b].py"] (Disk.File true (txt "x")),
     [Done Updated (txt "a[/b].py")], inr [txt "/project/a[/b].py"])
  ∧ write_files (C := strict_console) [markup_file] project true false
      project_disk
    = (Disk.put
         (Disk.put project_disk [txt "project"; txt "a["] (Disk.Dir true))
         [txt "project"; txt "a["; txt "b].py"] (Disk.File true (txt "x")),
       [], inl MarkupError).
Proof. split; vm_compute; reflexivity. Qed.


(** * Properties of more of the repository *)

(** ** More about the extractor *)

Section ExtractorMore.

(** The paths of the records are pairwise distinct. *)
Lemma extract_loop_NoDup ms : ∀ files seen,
  NoDup (map filepath files) →
  (∀ r, r ∈ files → filepath r ∈ seen) →
  NoDup (map filepath (extract_loop ms files seen)).
Proof.
  induction ms as [|m ms IH]; intros files seen Hnd Hseen;
    cbn [extract_loop]; [done|].
  case_decide as Hin; [by apply IH|].
  change (mkFile _ _ _) with (record_of m).
  apply IH.
  - rewrite map_app. apply NoDup_app. split; [done|]. split.
    + intros p Hp Hp'. cbn [map] in Hp'.
      apply list_elem_of_singleton in Hp'. subst p.
      apply Hin. apply list_elem_of_In, in_map_iff in Hp as (r & Hp & Hr).
      change (strip (group m 1)) with (filepath (record_of m)).
      rewrite <- Hp. apply Hseen. by apply list_elem_of_In.
    + apply NoDup_singleton.
  - intros r Hr. apply elem_of_app in Hr as [Hr|Hr].
    + apply elem_of_union. right. by apply Hseen.
    + apply list_elem_of_singleton in Hr as ->.
      apply elem_of_union. left. by apply elem_of_singleton.
Qed.

(** X1: the paths of the records that [extract_files] returns are
    pairwise distinct, for every response. *)
Theorem extract_paths_distinct response :
  NoDup (map filepath (extract_files response)).
Proof.
  apply extract_loop_NoDup; [constructor|].
  intros r Hr. by apply elem_of_nil in Hr.
Qed.

Lemma extract_loop_sublist ms : ∀ files seen,
  ∃ more, extract_loop ms files seen = files ++ more
          ∧ more `sublist_of` map record_of ms.
Proof.
  induction ms as [|m ms IH]; intros files seen; cbn [extract_loop map].
  - exists []. by rewrite app_nil_r.
  - case_decide.
    + destruct (IH files seen) as (more & -> & Hsub).
      exists more. split; [done|]. by apply sublist_cons.
    + change (mkFile _ _ _) with (record_of m).
      destruct (IH (files ++ [record_of m]) ({[strip (group m 1)]} ∪ seen))
        as (more & -> & Hsub).
      exists (record_of m :: more). split; [by rewrite <- app_assoc|].
      by apply sublist_skip.
Qed.

Lemma extract_files_sublist response :
  extract_files response
    `sublist_of` map record_of (Re.finditer pattern response).
Proof.
  unfold extract_files.
  by destruct (extract_loop_sublist (Re.finditer pattern response) [] ∅)
    as (more & -> & Hsub).
Qed.

(** X2: the records come in the order of their matches in the
    response: the output is the list of the records of all matches with
    some of them left out. *)
Theorem extract_keeps_document_order response :
  extract_files response
    `sublist_of` map record_of (Re.finditer pattern response).
Proof. apply extract_files_sublist. Qed.

(** X3: no path is lost: a path is the path of a record of the output
    exactly when it is the stripped path of a match. *)
Theorem extract_paths_are_match_paths response p :
  p ∈ map filepath (extract_files response)
  ↔ p ∈ map filepath (map record_of (Re.finditer pattern response)).
Proof.
  split.
  - intros Hp. apply list_elem_of_In, in_map_iff in Hp as (r & <- & Hr).
    apply list_elem_of_In, in_map. apply list_elem_of_In.
    eapply elem_of_sublist; [|apply extract_files_sublist].
    by apply list_elem_of_In.
  - intros Hp. apply list_elem_of_In, in_map_iff in Hp as (r & <- & Hr).
    pose proof (extract_loop_filter (filepath r)
                  (Re.finditer pattern response) [] ∅) as E.
    fold (extract_files response) in E.
    rewrite filter_nil, decide_False in E by apply not_elem_of_empty.
    simpl in E.
    assert (r ∈ filter (has_path (filepath r))
                  (map record_of (Re.finditer pattern response))) as Hf.
    { apply list_elem_of_filter. split; [done|]. by apply list_elem_of_In. }
    destruct (filter (has_path (filepath r))
                (map record_of (Re.finditer pattern response)))
      as [|r0 l] eqn:El; [by apply elem_of_nil in Hf|].
    assert (r0 ∈ filter (has_path (filepath r)) (extract_files response)) as H0.
    { rewrite E. simpl. by left. }
    apply list_elem_of_filter in H0 as [H0 Hin].
    apply list_elem_of_In, in_map_iff. exists r0. split; [done|].
    by apply list_elem_of_In.
Qed.

Lemma starts_with_app p b : starts_with p (p ++ b) = true.
Proof.
  induction p as [|c p IH]; simpl; [done|].
  by rewrite Ascii.eqb_refl, IH.
Qed.

Lemma occurs_here p s : starts_with p s = true → occurs p s = true.
Proof. destruct s; simpl; by intros ->. Qed.

Lemma occurs_app a p b : occurs p (a ++ p ++ b) = true.
Proof.
  induction a as [|c a IH].
  - rewrite app_nil_l. apply occurs_here, starts_with_app.
  - cbn [app occurs]. by rewrite IH, orb_true_r.
Qed.

(** The text of a match holds the marker word and a closing fence. *)
Lemma block_shape_occurs s g rest before :
  block_shape s g rest →
  occurs (txt "**File:") (before ++ s) = true
  ∧ occurs closing (before ++ s) = true.
Proof.
  intros (ws1 & path & ws2 & lang & body & -> & _). split.
  - apply occurs_app.
  - rewrite !app_assoc. rewrite <- (app_assoc _ closing rest).
    apply occurs_app.
Qed.

Lemma finditer_nil_intro response :
  (∀ m, m ∉ Re.finditer pattern response) → extract_files response = [].
Proof.
  intros H. unfold extract_files.
  destruct (Re.finditer pattern response) as [|m ms]; [done|].
  destruct (H m). by left.
Qed.

Lemma extract_nil_without_marker_or_fence response :
  occurs (txt "**File:") response = false
  ∨ occurs closing response = false →
  extract_files response = [].
Proof.
  intros H. apply finditer_nil_intro. intros m Hm.
  apply finditer_from_matches in Hm as (before & s & rest & -> & Hs).
  apply match_at_shape in Hs.
  destruct (block_shape_occurs _ _ _ before Hs) as [H1 H2].
  destruct H as [H|H]; congruence.
Qed.

(** X4: a response that does not hold the text [**File:], or that holds
    no closing fence (a newline and three backticks), gives no record:
    a marker that no complete fence follows is passed over. *)
Theorem extract_needs_marker_and_fence response :
  occurs (txt "**File:") response = false
  ∨ occurs closing response = false →
  extract_files response = [].
Proof. apply extract_nil_without_marker_or_fence. Qed.

Lemma extract_needs_marker_and_fence_witness :
  (occurs (txt "**File:")
     (txt "**File: `a.py`**" ++ [Char.nl] ++ txt "never fenced") = false
   ∨ occurs closing
       (txt "**File: `a.py`**" ++ [Char.nl] ++ txt "never fenced") = false)
  ∧ extract_files (txt "**File: `a.py`**" ++ [Char.nl] ++ txt "never fenced")
    = [].
Proof.
  assert (occurs (txt "**File:")
            (txt "**File: `a.py`**" ++ [Char.nl] ++ txt "never fenced") = false
          ∨ occurs closing
              (txt "**File: `a.py`**" ++ [Char.nl] ++ txt "never fenced")
            = false) as H
    by (right; vm_compute; reflexivity).
  split; [exact H|].
  exact (extract_needs_marker_and_fence _ H).
Defined.

Lemma finditer_star_free_nil post :
  star_free post = true → Re.finditer pattern post = [].
Proof.
  intros H. rewrite <- (app_nil_r post). by rewrite finditer_star_free.
Qed.

Lemma extract_loop_one m : extract_loop [m] [] ∅ = [record_of m].
Proof.
  cbn [extract_loop]. by rewrite decide_False by apply not_elem_of_empty.
Qed.

Lemma extract_one_block pre path lang body post :
  star_free pre = true → star_free post = true →
  file_block_ok path lang body = true →
  extract_files (pre ++ block path lang body ++ post)
  = [mkFile (strip path) (Some (strip body)) (language_or_text lang)].
Proof.
  intros Hpre Hpost Hok.
  apply file_block_ok_spec in Hok as (? & ? & ? & ?).
  unfold extract_files.
  rewrite finditer_star_free, finditer_block, finditer_star_free_nil by done.
  by rewrite extract_loop_one, record_of_block.
Qed.

(** X5: one complete file block, with text free of asterisks before
    and after it, gives exactly one record: the stripped path, the
    stripped body, and the language tag or [text] when there is none. *)
Theorem extract_single_block pre path lang body post :
  star_free pre = true → star_free post = true →
  file_block_ok path lang body = true →
  extract_files (pre ++ block path lang body ++ post)
  = [mkFile (strip path) (Some (strip body)) (language_or_text lang)].
Proof. apply extract_one_block. Qed.

Lemma extract_single_block_witness :
  extract_files
    ((txt "Here you go:" ++ [Char.nl])
     ++ block (txt "app.py") (txt "python") (txt "print('hi')")
     ++ [Char.nl])
  = [mkFile (strip (txt "app.py")) (Some (strip (txt "print('hi')")))
       (language_or_text (txt "python"))].
Proof. apply extract_single_block; reflexivity. Defined.

Lemma star_free_app a b :
  star_free (a ++ b) = star_free a && star_free b.
Proof. apply forallb_app. Qed.

(** X6: a body that itself holds a closing fence is cut there: the
    record has the text before the first closing fence, and what
    follows it in the body is lost (when it holds no asterisk). *)
Theorem extract_cuts_at_first_fence pre path lang body more post :
  star_free pre = true → star_free more = true → star_free post = true →
  file_block_ok path lang body = true →
  extract_files (pre ++ block path lang (body ++ closing ++ more) ++ post)
  = [mkFile (strip path) (Some (strip body)) (language_or_text lang)].
Proof.
  intros Hpre Hmore Hpost Hok.
  assert (block path lang (body ++ closing ++ more) ++ post
          = block path lang body ++ (more ++ closing ++ post)) as ->.
  { unfold block, closing. by rewrite <- !app_assoc. }
  apply extract_one_block; try done.
  rewrite !star_free_app, Hmore, Hpost. reflexivity.
Qed.

Lemma extract_cuts_at_first_fence_witness :
  extract_files
    ([] ++ block (txt "README.md") (txt "markdown")
             (txt "Usage:" ++ closing ++ txt "and the rest")
     ++ [])
  = [mkFile (strip (txt "README.md")) (Some (strip (txt "Usage:")))
       (language_or_text (txt "markdown"))].
Proof. apply extract_cuts_at_first_fence; reflexivity. Defined.

(** X7: the language of every record is [text] or a run of word
    characters that is not empty. *)
Theorem extract_language_shape response r :
  r ∈ extract_files response →
  language r = txt "text"
  ∨ (language r ≠ [] ∧ forallb Char.isword (language r) = true).
Proof.
  intros Hr. apply extract_files_from_match in Hr as (m & Hm & ->).
  apply finditer_from_matches in Hm as (before & s & rest & -> & Hs).
  apply match_at_shape in Hs
    as (ws1 & path & ws2 & lang & body & _ & _ & _ & _ & _ & Hw & _ & H2 & _).
  unfold record_of, group_or. cbn [language]. rewrite H2.
  destruct lang as [|c l]; [by left|]. right. split; done.
Qed.

Lemma extract_language_shape_witness :
  mkFile (txt "a.py") (Some (txt "x = 1")) (txt "python")
    ∈ extract_files indented_response
  ∧ (txt "python" = txt "text"
     ∨ (txt "python" ≠ [] ∧ forallb Char.isword (txt "python") = true)).
Proof.
  assert (mkFile (txt "a.py") (Some (txt "x = 1")) (txt "python")
            ∈ extract_files indented_response) as H
    by (vm_compute; left).
  split; [exact H|].
  exact (extract_language_shape indented_response _ H).
Defined.

Lemma forallb_strip p s :
  forallb p s = true → forallb p (strip s) = true.
Proof.
  destruct (strip_split s) as (l & t & Hs & _ & _). intros H.
  rewrite Hs, !forallb_app in H.
  apply andb_true_iff in H as [_ H]. by apply andb_true_iff in H as [H _].
Qed.

(** X8: the path of every record holds no backtick and neither begins
    nor ends with a whitespace character. *)
Theorem extract_path_shape response r :
  r ∈ extract_files response →
  forallb Char.not_backtick (filepath r) = true
  ∧ (∀ c, head (filepath r) = Some c → Char.isspace c = false)
  ∧ (∀ c, last (filepath r) = Some c → Char.isspace c = false).
Proof.
  intros Hr.
  apply record_captured in Hr as (path & body & _ & _ & _ & Hbt & -> & _).
  split; [by apply forallb_strip|]. split.
  - apply strip_head.
  - apply strip_last.
Qed.

Lemma extract_path_shape_witness :
  mkFile (txt "a.py") (Some (txt "x = 1")) (txt "python")
    ∈ extract_files indented_response
  ∧ forallb Char.not_backtick (txt "a.py") = true
  ∧ (∀ c, head (txt "a.py") = Some c → Char.isspace c = false)
  ∧ (∀ c, last (txt "a.py") = Some c → Char.isspace c = false).
Proof.
  assert (mkFile (txt "a.py") (Some (txt "x = 1")) (txt "python")
            ∈ extract_files indented_response) as H
    by (vm_compute; left).
  split; [exact H|].
  exact (extract_path_shape indented_response _ H).
Defined.

(** X9: every match that [finditer] reports for the pattern lies in
    the response and has the shape of the grammar: the marker with a
    path that is not empty and has no backtick, the opening fence with
    a tag of word characters or none, the body and the closing fence,
    with the path, the tag and the body as groups 1, 2 and 3. *)
Theorem finditer_matches_have_block_shape response m :
  m ∈ Re.finditer pattern response →
  ∃ before s rest, response = before ++ s ∧ block_shape s m rest.
Proof.
  intros Hm.
  apply finditer_from_matches in Hm as (before & s & rest & -> & Hs).
  exists before, s, rest. split; [done|]. by apply match_at_shape.
Qed.

Lemma finditer_matches_have_block_shape_witness :
  block_groups (txt "a.py") (txt "python") (txt "x = 1")
    ∈ Re.finditer pattern
        (block (txt "a.py") (txt "python") (txt "x = 1") ++ [])
  ∧ ∃ before s rest,
      block (txt "a.py") (txt "python") (txt "x = 1") ++ [] = before ++ s
      ∧ block_shape s (block_groups (txt "a.py") (txt "python") (txt "x = 1"))
          rest.
Proof.
  assert (block_groups (txt "a.py") (txt "python") (txt "x = 1")
            ∈ Re.finditer pattern
                (block (txt "a.py") (txt "python") (txt "x = 1") ++ []))
    as H.
  { rewrite finditer_block by (try reflexivity; discriminate). left. }
  split; [exact H|].
  exact (finditer_matches_have_block_shape _ _ H).
Defined.

End ExtractorMore.

(** ** More about the writer, on any filesystem and any console *)

Section WriterMore.

Context {fs : Type} {FS : FileSystem fs} {C : Console Notice}.

Implicit Types (st : State fs) (r : FileRecord).

(** X10: whatever the filesystem and the console do, [write_files]
    prints at most one line for each record, in the order of the
    records, and each line is about its record: it names the
    [filepath] of the record, or it is the line for an empty path and
    the path of the record is blank.  When [write_files] returns a
    list, every record has its line; when it raises, the lines are
    those of the records before the one at which it raises. *)
Theorem write_files_one_line_per_record files base ov sm (d : fs) :
  let '(_, log, res) := write_files files base ov sm d in
  match res with
  | inr _ => Forall2 about log files
  | inl _ =>
      ∃ printed rest,
        files = printed ++ rest ∧ rest ≠ [] ∧ Forall2 about log printed
  end.
Proof.
  unfold write_files.
  destruct (write_loop base ov sm files (mkState d [] [])) as [st' res] eqn:E.
  apply write_loop_steps in E as (log & new & Hlog & _ & _ & _ & _ & Hres).
  cbn [console app] in Hlog.
  destruct res as [e|[]]; rewrite Hlog; exact Hres.
Qed.


Lemma finish_turn_framed fp log created (body : fs * list text * Ending) :
  finish_turn fp log created body
  = framed log created (finish_turn fp [] [] body).
Proof.
  destruct body as [[d new] ending]. unfold finish_turn, framed.
  destruct ending as [n|e]; [destruct (print_error n)|];
    try destruct (print_error (failure_notice _ _)); simpl;
    by rewrite ?app_nil_r.
Qed.

(** One turn of the loop reads nothing but the disk. *)
Lemma write_one_framed base ov sm r d log created :
  write_one base ov sm r (mkState d log created)
  = framed log created (write_one base ov sm r (mkState d [] [])).
Proof. rewrite !write_one_before_print. apply finish_turn_framed. Qed.

Lemma write_loop_framed base ov sm files : ∀ d log created,
  write_loop base ov sm files (mkState d log created)
  = framed log created (write_loop base ov sm files (mkState d [] [])).
Proof.
  induction files as [|r rest IH]; intros d log created.
  - unfold framed. simpl. by rewrite !app_nil_r.
  - rewrite !write_loop_cons, write_one_framed.
    destruct (write_one base ov sm r (mkState d [] []))
      as [[d1 l1 c1] [e|[]]]; unfold framed at 1;
      cbn [fst snd disk console created_files]; [done|].
    rewrite (IH d1 (log ++ l1) (created ++ c1)), (IH d1 l1 c1).
    destruct (write_loop base ov sm rest (mkState d1 [] [])) as [[d2 l2 c2] res2].
    unfold framed. simpl. by rewrite !app_assoc.
Qed.

Lemma write_loop_app base ov sm files1 files2 : ∀ st,
  write_loop base ov sm (files1 ++ files2) st
  = match write_loop base ov sm files1 st with
    | (st1, inr _) => write_loop base ov sm files2 st1
    | (st1, inl e) => (st1, inl e)
    end.
Proof.
  induction files1 as [|r rest IH]; intros st; [done|].
  cbn [app]. rewrite !write_loop_cons.
  destruct (write_one base ov sm r st) as [st1 [e|[]]]; [done|apply IH].
Qed.

(** X12: a batch is the sequence of its parts: writing [files1] and
    then, on the disk that this leaves, [files2], prints the lines and
    returns the paths of writing [files1 ++ files2] at once. *)
Theorem write_files_app files1 files2 base ov sm (d d1 d2 : fs)
    log1 log2 created1 created2 :
  write_files files1 base ov sm d = (d1, log1, inr created1) →
  write_files files2 base ov sm d1 = (d2, log2, inr created2) →
  write_files (files1 ++ files2) base ov sm d
  = (d2, log1 ++ log2, inr (created1 ++ created2)).
Proof.
  unfold write_files. rewrite write_loop_app.
  destruct (write_loop base ov sm files1 (mkState d [] []))
    as [[d1' l1 c1] [e|[]]]; [done|].
  cbn [fst disk console created_files]. intros [= -> -> ->] H2.
  rewrite write_loop_framed. revert H2.
  destruct (write_loop base ov sm files2 (mkState d1 [] []))
    as [[d2' l2 c2] [e|[]]]; [done|].
  unfold framed. cbn [fst snd disk console created_files].
  intros [= -> -> ->]. reflexivity.
Qed.

(** X13: [safe_mode] changes nothing for a record that resolves inside
    the resolved base directory: one turn of the loop ends in the same
    state with [safe_mode] on and off. *)
Theorem safe_mode_keeps_contained_records base ov r st full b rest_of_path :
  resolve (disk st) (truediv base (filepath r)) = inr full →
  resolve (disk st) base = inr b →
  relative_to full b = inr rest_of_path →
  write_one base ov true r st = write_one base ov false r st.
Proof.
  intros Hfull Hb Hin. rewrite !write_one_before_print. f_equal.
  unfold before_print.
  destruct (negb (truthy (filepath r)) || bool_decide (strip (filepath r) = []));
    [done|].
  rewrite Hfull. unfold escape_ending. by rewrite Hb, Hin.
Qed.

(** X26: an exception raised while a record is processed is caught in
    the loop and reported when the console prints its error line: the
    loop goes on with the next record from the state that the failure
    left.  The failing record has added nothing to [created_files],
    unless the exception is that of the [print] of its success line:
    then the file is written and its path is in [created_files]. *)
Theorem printed_failure_is_isolated base ov sm r rest st st1 e :
  try_body base ov sm r st = (st1, inl e) →
  print_error (failure_notice (filepath r) e) = None →
  write_loop base ov sm (r :: rest) st
    = write_loop base ov sm rest (notify (failure_notice (filepath r) e) st1)
  ∧ (created_files st1 = created_files st
     ∨ ∃ full,
         created_files st1 = created_files st ++ [str full]
         ∧ print_error (Done (if ov then Updated else Created) (filepath r))
           = Some e).
Proof.
  intros Hraise Hprint. split.
  - rewrite write_loop_cons. unfold write_one, try_except, handler.
    by rewrite Hraise, (print_printed _ _ Hprint).
  - rewrite try_body_before_print in Hraise. unfold print in Hraise.
    destruct (before_print_cases base ov sm r (disk st))
      as [(d' & n & E & Hn & Ha)|[(d' & full & E)|(d' & e0 & E)]];
      rewrite E in Hraise.
    + destruct (print_error n); injection Hraise as <- _;
        left; cbn [created_files]; by rewrite app_nil_r.
    + destruct (print_error _) as [e1|] eqn:Hdone; [|done].
      injection Hraise as <- <-. right. by exists full.
    + injection Hraise as <- _. left. cbn [created_files].
      by rewrite app_nil_r.
Qed.

Lemma write_loop_returns base ov sm files : ∀ st,
  (∀ r e, r ∈ files → print_error (failure_notice (filepath r) e) = None) →
  ∃ st', write_loop base ov sm files st = (st', inr tt).
Proof.
  induction files as [|r rest IH]; intros st Hall; [by exists st|].
  rewrite write_loop_cons, write_one_before_print.
  destruct (before_print base ov sm r (disk st)) as [[d new] ending].
  unfold finish_turn.
  assert (∀ e, print_error (failure_notice (filepath r) e) = None) as Hr
    by (intros e; apply Hall; by left).
  assert (∀ r' e, r' ∈ rest → print_error (failure_notice (filepath r') e) = None)
    as Hrest by (intros r' e Hr'; apply Hall; by right).
  destruct ending as [n|e]; [destruct (print_error n)|];
    rewrite ?Hr; by apply IH.
Qed.

(** X27: [write_files] hands no exception to its caller, whatever the
    filesystem does, when the console prints the error lines of the
    paths of the batch: then every exception is caught in the loop. *)
Theorem write_files_returns_when_failures_print files base ov sm (d : fs) :
  (∀ r e, r ∈ files → print_error (failure_notice (filepath r) e) = None) →
  ∃ d' log created,
    write_files files base ov sm d = (d', log, inr created).
Proof.
  intros Hall. unfold write_files.
  destruct (write_loop_returns base ov sm files (mkState d [] []) Hall)
    as [st' ->].
  by eexists _, _, _.
Qed.

End WriterMore.


Lemma write_files_app_witness :
  write_files (C := mock_console) ([first_file] ++ [third_file]) project
    false false project_disk
  = (Disk.put
       (Disk.put project_disk [txt "project"; txt "one.txt"]
          (Disk.File true (txt "1")))
       [txt "project"; txt "three.txt"] (Disk.File true (txt "3")),
     [Done Created (txt "one.txt")] ++ [Done Created (txt "three.txt")],
     inr ([txt "/project/one.txt"] ++ [txt "/project/three.txt"])).
Proof.
  apply (write_files_app (C := mock_console) [first_file] [third_file]
           project false false project_disk
           (Disk.put project_disk [txt "project"; txt "one.txt"]
              (Disk.File true (txt "1"))));
    vm_compute; reflexivity.
Defined.

Lemma safe_mode_keeps_contained_records_witness :
  write_one (C := mock_console) project true true new_file
    (mkState project_disk [] [])
  = write_one (C := mock_console) project true false new_file
      (mkState project_disk [] []).
Proof.
  apply (safe_mode_keeps_contained_records (C := mock_console) project true
           new_file (mkState project_disk [] [])
           (path_of (txt "/project/new.py"))
           project (mkPath false [txt "new.py"]));
    vm_compute; reflexivity.
Defined.

Lemma printed_failure_is_isolated_witness :
  let st := mkState guarded_disk [] [] in
  let e := PermissionError (txt "Permission denied") in
  try_body (C := mock_console) project false false locked_file st
  = (st, inl e)
  ∧ write_loop (C := mock_console) project false false
      [locked_file; third_file] st
    = write_loop (C := mock_console) project false false [third_file]
        (notify (failure_notice (filepath locked_file) e) st)
  ∧ (created_files st = created_files st
     ∨ ∃ full,
         created_files st = created_files st ++ [str full]
         ∧ print_error (Console := mock_console)
             (Done Created (filepath locked_file)) = Some e).
Proof.
  intros st e.
  assert (try_body (C := mock_console) project false false locked_file st
          = (st, inl e)) as Hraise
    by (vm_compute; reflexivity).
  split; [exact Hraise|].
  exact (printed_failure_is_isolated (C := mock_console) project false false
           locked_file [third_file] st st e Hraise eq_refl).
Defined.

Lemma write_files_returns_when_failures_print_witness :
  ∃ d' log created,
    write_files (C := mock_console) [first_file; locked_file; third_file]
      project false false guarded_disk
    = (d', log, inr created).
Proof.
  apply (write_files_returns_when_failures_print (C := mock_console)).
  intros r e _. reflexivity.
Defined.

(** ** Containment with a console that prints the line *)

Section ContainmentMore.

Context {C : Console Notice}.

(** X28: on a disk without symbolic links, take a record whose path
    resolves outside the resolved base directory.  With [safe_mode] on,
    a batch of this record alone leaves the disk as it was and returns
    no path, whatever the console; when the console prints the security
    line of the path, the loop prints it and goes on with the next
    record, and the batch returns the empty list.  With [safe_mode] off
    and [overwrite] on, the record is written where it resolves,
    outside the base directory, whenever the directories can be made,
    the file can be written and the console prints the success line. *)
Theorem safe_mode_rejects_escape d base r full b e :
  Disk.resolve d (truediv base (filepath r)) = inr full →
  Disk.resolve d base = inr b →
  relative_to full b = inl e →
  (∀ ov d' log res,
     write_files [r] base ov true d = (d', log, res) →
     d' = d ∧ ∀ created, res = inr created → created = [])
  ∧ (print_error (SecurityEscape (filepath r)) = None →
     (∀ ov rest log created,
        write_loop base ov true (r :: rest) (mkState d log created)
        = write_loop base ov true rest
            (mkState d (log ++ [SecurityEscape (filepath r)]) created))
     ∧ (∀ ov, write_files [r] base ov true d
              = (d, [SecurityEscape (filepath r)], inr [])))
  ∧ (∀ c d1 d2,
       content r = Some c →
       Disk.mkdir_parents d (parent full) = (d1, inr tt) →
       Disk.write_text d1 full c = (d2, inr tt) →
       print_error (Done Updated (filepath r)) = None →
       write_files [r] base true false d
         = (d2, [Done Updated (filepath r)], inr [str full])
       ∧ Disk.lookup_node d2 (parts full) = Some (Disk.File true c)).
Proof.
  intros Hfull Hb Hout.
  split; [|split].
  - intros ov d' log res. rewrite write_files_single.
    rewrite (before_print_escape base ov r full b e d Hfull Hb Hout).
    unfold finish_turn.
    destruct (print_error (SecurityEscape (filepath r))) as [e1|];
      [destruct (print_error (failure_notice (filepath r) e1))|];
      intros [= <- <- <-]; split; try done; by intros created [= <-].
  - intros Hprint. split.
    + intros ov rest log created.
      rewrite write_loop_cons, write_one_before_print.
      cbn [disk console created_files].
      rewrite (before_print_escape base ov r full b e d Hfull Hb Hout).
      unfold finish_turn. by rewrite Hprint, app_nil_r.
    + intros ov. rewrite write_files_single.
      rewrite (before_print_escape base ov r full b e d Hfull Hb Hout).
      unfold finish_turn. by rewrite Hprint.
  - intros c d1 d2 Hc Hmk Hw Hprint. split.
    + rewrite write_files_single.
      rewrite (before_print_writes (FS := Disk.file_system) base true r d full
                 (bool_decide (is_Some (Disk.lookup_node d (parts full))))
                 d1 c d2
                 (not_blank_outside base r full b e d Hfull Hb Hout)
                 Hfull eq_refl (andb_false_r _) Hmk Hc Hw).
      unfold finish_turn. by rewrite Hprint.
    + apply disk_write_text_ok in Hw as ->. apply disk_lookup_put.
Qed.

End ContainmentMore.

Lemma safe_mode_rejects_escape_witness :
  (∀ ov d' log res,
     write_files (C := mock_console) [evil_file] project ov true project_disk
     = (d', log, res) →
     d' = project_disk ∧ ∀ created, res = inr created → created = [])
  ∧ (∀ ov rest log created,
     write_loop (C := mock_console) project ov true (evil_file :: rest)
       (mkState project_disk log created)
     = write_loop (C := mock_console) project ov true rest
         (mkState project_disk
            (log ++ [SecurityEscape (txt "../../etc/evil")]) created))
  ∧ (∀ ov, write_files (C := mock_console) [evil_file] project ov true
             project_disk
           = (project_disk, [SecurityEscape (txt "../../etc/evil")], inr []))
  ∧ write_files (C := mock_console) [evil_file] project true false project_disk
    = (Disk.put (Disk.put project_disk [txt "etc"] (Disk.Dir true))
         [txt "etc"; txt "evil"] (Disk.File true (txt "boo")),
       [Done Updated (txt "../../etc/evil")], inr [txt "/etc/evil"]).
Proof.
  destruct (safe_mode_rejects_escape (C := mock_console) project_disk project
              evil_file etc_evil project
              (ValueError (txt "is not in the subpath of")))
    as (Hsafe & Hline & Hwrite); [vm_compute; reflexivity..|].
  destruct (Hline eq_refl) as [Hloop Hone].
  split; [exact Hsafe|]. split; [exact Hloop|]. split; [exact Hone|].
  apply (Hwrite (txt "boo")
           (Disk.put project_disk [txt "etc"] (Disk.Dir true))
           (Disk.put (Disk.put project_disk [txt "etc"] (Disk.Dir true))
              [txt "etc"; txt "evil"] (Disk.File true (txt "boo"))));
    vm_compute; reflexivity.
Defined.

(** ** What the writer keeps on the disk *)

Section DiskKeeps.

Lemma kept_refl ov n : kept ov n n.
Proof. destruct ov; [|done]. by destruct n. Qed.

Lemma kept_trans ov n1 n2 n3 : kept ov n1 n2 → kept ov n2 n3 → kept ov n1 n3.
Proof.
  destruct ov; simpl; [|congruence].
  destruct n1, n2, n3; simpl; try done; congruence.
Qed.

Lemma keeps_refl ov d : keeps ov d d.
Proof. split; [done|]. intros p n Hn. exists n. split; [done|apply kept_refl]. Qed.

Lemma keeps_trans ov d1 d2 d3 : keeps ov d1 d2 → keeps ov d2 d3 → keeps ov d1 d3.
Proof.
  intros [Hc1 H1] [Hc2 H2]. split; [congruence|]. intros p n Hn.
  destruct (H1 p n Hn) as (n2 & Hn2 & Hk2).
  destruct (H2 p n2 Hn2) as (n3 & Hn3 & Hk3).
  exists n3. split; [done|]. by eapply kept_trans.
Qed.

Lemma lookup_put_ne d p q n :
  p ≠ q → Disk.lookup_node (Disk.put d q n) p = Disk.lookup_node d p.
Proof.
  intros Hne. unfold Disk.lookup_node, Disk.put. simpl.
  by rewrite lookup_insert_ne.
Qed.

Lemma lookup_node_root d : is_Some (Disk.lookup_node d []).
Proof. unfold Disk.lookup_node. by destruct (Disk.nodes d !! []). Qed.

(** A new entry keeps all the others. *)
Lemma keeps_put_new ov d q n :
  Disk.lookup_node d q = None → keeps ov d (Disk.put d q n).
Proof.
  intros Hq. split; [done|]. intros p m Hm. exists m.
  split; [|apply kept_refl]. rewrite lookup_put_ne; [done|]. congruence.
Qed.

Lemma mkdir_from_keeps ov todo : ∀ d pre d' res,
  Disk.mkdir_from d pre todo = (d', res) → keeps ov d d'.
Proof.
  induction todo as [|name todo IH]; intros d pre d' res; simpl.
  - intros [= <- _]. apply keeps_refl.
  - destruct (Disk.lookup_node d (pre ++ [name])) as [[w|w x]|] eqn:Hhere.
    + apply IH.
    + intros [= <- _]. apply keeps_refl.
    + destruct (Disk.lookup_node d pre) as [[[]|w x]|].
      * intros H. eapply keeps_trans; [|by eapply IH].
        by apply keeps_put_new.
      * intros [= <- _]. apply keeps_refl.
      * intros [= <- _]. apply keeps_refl.
      * intros [= <- _]. apply keeps_refl.
Qed.

Lemma write_text_keeps d p c d' res :
  Disk.write_text d p c = (d', res) → keeps true d d'.
Proof.
  unfold Disk.write_text.
  destruct (Disk.lookup_node d (parts p)) as [[w|[] x]|] eqn:Hp.
  - intros [= <- _]. apply keeps_refl.
  - intros [= <- _]. split; [done|]. intros q n Hn.
    destruct (decide (q = parts p)) as [->|Hne].
    + rewrite disk_lookup_put. eexists. split; [done|].
      rewrite Hp in Hn. by injection Hn as <-.
    + rewrite lookup_put_ne by done. exists n. split; [done|apply kept_refl].
  - intros [= <- _]. apply keeps_refl.
  - destruct (Disk.lookup_node d (removelast (parts p))) as [[[]|w x]|];
      try (intros [= <- _]; apply keeps_refl).
    intros [= <- _]. by apply keeps_put_new.
Qed.

Lemma write_text_new_keeps ov d p c d' res :
  Disk.lookup_node d (parts p) = None →
  Disk.write_text d p c = (d', res) → keeps ov d d'.
Proof.
  intros Hp. unfold Disk.write_text. rewrite Hp.
  destruct (Disk.lookup_node d (removelast (parts p))) as [[[]|w x]|];
    try (intros [= <- _]; apply keeps_refl).
  intros [= <- _]. by apply keeps_put_new.
Qed.

Lemma write_text_other d p c d' res q :
  Disk.write_text d p c = (d', res) → q ≠ parts p →
  Disk.lookup_node d' q = Disk.lookup_node d q.
Proof.
  unfold Disk.write_text. intros H Hq.
  repeat case_match; simplify_eq; try done; by apply lookup_put_ne.
Qed.

(** Making the directories and writing the file keeps the disk, when
    a file is not written over unless [overwrite] is on. *)
Lemma write_tail_keeps ov d full c d1 res1 d2 res2 :
  Disk.mkdir_parents d (parent full) = (d1, res1) →
  Disk.write_text d1 full c = (d2, res2) →
  (ov = false → Disk.lookup_node d (parts full) = None) →
  keeps ov d d2.
Proof.
  intros Hmk Hw Hnew. destruct ov.
  - eapply keeps_trans; [by eapply mkdir_from_keeps|by eapply write_text_keeps].
  - specialize (Hnew eq_refl).
    pose proof (mkdir_from_keeps false _ _ _ _ _ Hmk) as [Hc1 H1].
    pose proof (write_text_keeps _ _ _ _ _ Hw) as [Hc2 _].
    split; [congruence|]. intros p n Hn.
    destruct (H1 p n Hn) as (n1 & Hn1 & <-).
    exists n. split; [|done].
    rewrite (write_text_other _ _ _ _ _ p Hw); [done|]. congruence.
Qed.

Lemma before_print_keeps base ov sm r (d d' : Disk.t) new ending :
  before_print base ov sm r d = (d', new, ending) → keeps ov d d'.
Proof.
  unfold before_print.
  destruct (negb (truthy (filepath r)) || bool_decide (strip (filepath r) = [])).
  { intros [= <- _ _]. apply keeps_refl. }
  simpl.
  destruct (Disk.resolve d (truediv base (filepath r))) as [e0|full];
    [intros [= <- _ _]; apply keeps_refl|].
  destruct (if sm then escape_ending base full (filepath r) d else None);
    [intros [= <- _ _]; apply keeps_refl|].
  unfold Disk.path_exists.
  destruct (bool_decide (is_Some (Disk.lookup_node d (parts full)))
            && negb ov) eqn:Hskip;
    [intros [= <- _ _]; apply keeps_refl|].
  destruct (Disk.mkdir_parents d (parent full)) as [d1 [e0|[]]] eqn:Hmk.
  { intros [= <- _ _]. by eapply mkdir_from_keeps. }
  destruct (content r) as [c|].
  2:{ intros [= <- _ _]. by eapply mkdir_from_keeps. }
  destruct (Disk.write_text d1 full c) as [d2 res2] eqn:Hw.
  assert (keeps ov d d2) as Hkeep.
  { eapply write_tail_keeps; [done..|]. intros ->.
    rewrite andb_true_r in Hskip. apply bool_decide_eq_false in Hskip.
    destruct (Disk.lookup_node d (parts full)); [|done].
    destruct Hskip. by eexists. }
  destruct res2 as [e0|[]]; by intros [= <- _ _].
Qed.

Lemma finish_turn_disk {fs : Type} {C : Console Notice} fp log created
    (d : fs) new ending :
  disk (finish_turn fp log created (d, new, ending)).1 = d.
Proof.
  unfold finish_turn.
  destruct ending as [n|e]; [destruct (print_error n)|];
    try destruct (print_error (failure_notice _ _)); done.
Qed.

Lemma write_loop_keeps {C : Console Notice} base ov sm files :
  ∀ (st st' : State Disk.t) res,
  write_loop base ov sm files st = (st', res) →
  keeps ov (disk st) (disk st').
Proof.
  induction files as [|r rest IH]; intros st st' res.
  - intros [= <- _]. apply keeps_refl.
  - rewrite write_loop_cons, write_one_before_print.
    destruct (before_print base ov sm r (disk st)) as [[d1 new] ending] eqn:E.
    apply before_print_keeps in E.
    pose proof (finish_turn_disk (filepath r) (console st) (created_files st)
                  d1 new ending) as Hd.
    destruct (finish_turn (filepath r) (console st) (created_files st)
                (d1, new, ending)) as [st1 [e|[]]]; cbn [fst] in Hd; subst d1.
    + by intros [= <- _].
    + intros H. apply IH in H. by eapply keeps_trans.
Qed.

(** X14: on a disk without symbolic links and with [overwrite] off,
    [write_files] changes and removes no entry that was on the disk:
    every directory and every file, with its text, is as it was. *)
Theorem write_files_no_overwrite_keeps_disk {C : Console Notice}
    files base sm d d' log res p n :
  write_files files base false sm d = (d', log, res) →
  Disk.lookup_node d p = Some n →
  Disk.lookup_node d' p = Some n.
Proof.
  unfold write_files.
  destruct (write_loop base false sm files (mkState d [] [])) as [st' r] eqn:E.
  apply write_loop_keeps in E as [_ E].
  intros Hres Hn. destruct (E p n Hn) as (n' & Hn' & <-).
  by destruct r; injection Hres as <- _ _.
Qed.

(** X15: on a disk without symbolic links and with [overwrite] on,
    [write_files] removes no entry: a directory stays the directory it
    was, and a file stays a file with the same permission. *)
Theorem write_files_keeps_kinds {C : Console Notice}
    files base sm d d' log res p n :
  write_files files base true sm d = (d', log, res) →
  Disk.lookup_node d p = Some n →
  ∃ n', Disk.lookup_node d' p = Some n' ∧ same_kind n n'.
Proof.
  unfold write_files.
  destruct (write_loop base true sm files (mkState d [] [])) as [st' r] eqn:E.
  apply write_loop_keeps in E as [_ E].
  intros Hres Hn. destruct (E p n Hn) as (n' & Hn' & Hk).
  exists n'. split; [|done].
  by destruct r; injection Hres as <- _ _.
Qed.

End DiskKeeps.

Lemma write_files_no_overwrite_keeps_disk_witness :
  write_files (C := mock_console) [new_file] project false false existing_disk
  = (existing_disk, [SkippedExists (txt "new.py")], inr [])
  ∧ Disk.lookup_node existing_disk [txt "project"; txt "new.py"]
    = Some (Disk.File true (txt "old")).
Proof.
  assert (write_files (C := mock_console) [new_file] project false false
            existing_disk
          = (existing_disk, [SkippedExists (txt "new.py")], inr [])) as H
    by (vm_compute; reflexivity).
  split; [exact H|].
  apply (write_files_no_overwrite_keeps_disk (C := mock_console)
           _ _ _ _ _ _ _ _ _ H).
  vm_compute. reflexivity.
Defined.

Lemma write_files_keeps_kinds_witness :
  write_files (C := mock_console) [new_file] project true false existing_disk
  = (Disk.put existing_disk [txt "project"; txt "new.py"]
       (Disk.File true (txt "x = 1")),
     [Done Updated (txt "new.py")], inr [txt "/project/new.py"])
  ∧ ∃ n', Disk.lookup_node
            (Disk.put existing_disk [txt "project"; txt "new.py"]
               (Disk.File true (txt "x = 1")))
            [txt "project"; txt "new.py"] = Some n'
          ∧ same_kind (Disk.File true (txt "old")) n'.
Proof.
  assert (write_files (C := mock_console) [new_file] project true false
            existing_disk
          = (Disk.put existing_disk [txt "project"; txt "new.py"]
               (Disk.File true (txt "x = 1")),
             [Done Updated (txt "new.py")], inr [txt "/project/new.py"]))
    as H by (vm_compute; reflexivity).
  split; [exact H|].
  apply (write_files_keeps_kinds (C := mock_console) _ _ _ _ _ _ _ _ _ H).
  vm_compute. reflexivity.
Defined.

(** ** Writing a record again *)

Section Again.

Context {fs : Type} {FS : FileSystem fs}.

(** What has happened when the [try] body has added an entry. *)
Lemma before_print_done_inv base ov r (d d2 : fs) new ending :
  before_print base ov false r d = (d2, new, ending) →
  new ≠ [] →
  ∃ full present d1 c,
    negb (truthy (filepath r)) || bool_decide (strip (filepath r) = []) = false
    ∧ resolve d (truediv base (filepath r)) = inr full
    ∧ path_exists d full = inr present
    ∧ present && negb ov = false
    ∧ mkdir_parents d (parent full) = (d1, inr tt)
    ∧ content r = Some c
    ∧ write_text d1 full c = (d2, inr tt).
Proof.
  unfold before_print.
  destruct (negb (truthy (filepath r)) || bool_decide (strip (filepath r) = []))
    eqn:Hblank; [by intros [= _ <- _]|].
  destruct (resolve d (truediv base (filepath r))) as [e0|full] eqn:Hf;
    [by intros [= _ <- _]|].
  destruct (path_exists d full) as [e0|present] eqn:Hp;
    [by intros [= _ <- _]|].
  destruct (present && negb ov) eqn:Hskip; [by intros [= _ <- _]|].
  destruct (mkdir_parents d (parent full)) as [d1 [e0|[]]] eqn:Hmk;
    [by intros [= _ <- _]|].
  destruct (content r) as [c|]; [|by intros [= _ <- _]].
  destruct (write_text d1 full c) as [d2' [e0|[]]] eqn:Hw;
    [by intros [= _ <- _]|].
  intros [= <- _ _] _. by exists full, present, d1, c.
Qed.

End Again.

Section DiskAgain.

Lemma put_put d p n : Disk.put (Disk.put d p n) p n = Disk.put d p n.
Proof. unfold Disk.put. simpl. by rewrite insert_insert_eq. Qed.

Lemma mkdir_from_again todo : ∀ d pre,
  dirs_exist d pre todo → Disk.mkdir_from d pre todo = (d, inr tt).
Proof.
  induction todo as [|name todo IH]; intros d pre; simpl; [done|].
  intros [[w ->] Hrest]. by apply IH.
Qed.

Lemma dirs_exist_keeps todo : ∀ d d' pre,
  keeps true d d' → dirs_exist d pre todo → dirs_exist d' pre todo.
Proof.
  induction todo as [|name todo IH]; intros d d' pre Hk; simpl; [done|].
  intros [[w Hw] Hrest]. split; [|by eapply IH].
  destruct Hk as [_ Hk]. destruct (Hk _ _ Hw) as (n' & Hn' & Hs).
  destruct n'; [|done]. simpl in Hs. subst. by eexists.
Qed.

Lemma mkdir_from_dirs_exist todo : ∀ d pre d',
  Disk.mkdir_from d pre todo = (d', inr tt) → dirs_exist d' pre todo.
Proof.
  induction todo as [|name todo IH]; intros d pre d'; simpl; [done|].
  destruct (Disk.lookup_node d (pre ++ [name])) as [[w|w x]|] eqn:Hhere.
  - intros H. split; [|by eapply IH].
    pose proof (mkdir_from_keeps false _ _ _ _ _ H) as [_ Hk].
    destruct (Hk _ _ Hhere) as (n' & Hn' & <-). by eexists.
  - done.
  - destruct (Disk.lookup_node d pre) as [[[]|w x]|]; try done.
    intros H. split; [|by eapply IH].
    pose proof (mkdir_from_keeps false _ _ _ _ _ H) as [_ Hk].
    destruct (Hk (pre ++ [name]) (Disk.Dir true)) as (n' & Hn' & <-);
      [apply disk_lookup_put|by eexists].
Qed.

Lemma resolve_cwd d d' p :
  Disk.cwd d' = Disk.cwd d → Disk.resolve d' p = Disk.resolve d p.
Proof. unfold Disk.resolve. by intros ->. Qed.

(** Once a record has been written, the [try] body does the same again
    and leaves the disk as it is. *)
Lemma before_print_again r base (d d1 : Disk.t) new ending :
  before_print base true false r d = (d1, new, ending) →
  new ≠ [] →
  before_print base true false r d1 = (d1, new, ending).
Proof.
  intros E Hne.
  destruct (before_print_done_inv _ _ _ _ _ _ _ E Hne)
    as (full & present & da & c & Hblank & Hfull & Hpresent & Hskip & Hmk
        & Hc & Hw).
  rewrite (before_print_writes base true r d full present da c d1 Hblank
             Hfull Hpresent Hskip Hmk Hc Hw) in E.
  injection E as <- <-.
  pose proof (disk_write_text_ok _ _ _ _ Hw) as Hd1. subst d1.
  pose proof (mkdir_from_keeps true _ _ _ _ _ Hmk) as Hk1.
  pose proof (write_text_keeps _ _ _ _ _ Hw) as Hk2.
  assert (Disk.cwd (Disk.put da (parts full) (Disk.File true c)) = Disk.cwd d)
    as Hcwd by (destruct Hk1 as [Hk1 _]; exact Hk1).
  apply (before_print_writes base true r
           (Disk.put da (parts full) (Disk.File true c))
           full true
           (Disk.put da (parts full) (Disk.File true c)) c
           (Disk.put da (parts full) (Disk.File true c)) Hblank).
  - simpl. rewrite (resolve_cwd d) by done. exact Hfull.
  - simpl. unfold Disk.path_exists. by rewrite disk_lookup_put.
  - done.
  - apply mkdir_from_again.
    eapply dirs_exist_keeps; [exact Hk2|].
    exact (mkdir_from_dirs_exist (parts (parent full)) d [] da Hmk).
  - done.
  - simpl. unfold Disk.write_text. rewrite disk_lookup_put.
    by rewrite put_put.
Qed.

(** X16: on a disk without symbolic links, writing again a record that
    has just been written, with the defaults of [write_files], leaves
    the disk as the first call left it, prints the same line and
    returns the same path. *)
Theorem write_files_again {C : Console Notice} r base (d d1 : Disk.t)
    log created :
  write_files [r] base true false d = (d1, log, inr created) →
  created ≠ [] →
  write_files [r] base true false d1 = (d1, log, inr created).
Proof.
  rewrite !write_files_single.
  destruct (before_print base true false r d) as [[da new] ending] eqn:E.
  intros Hrun Hcreated.
  assert (da = d1 ∧ new = created) as [-> ->].
  { revert Hrun. unfold finish_turn.
    destruct ending as [n|e]; [destruct (print_error n)|];
      try destruct (print_error (failure_notice _ _)); try done;
      by intros [= <- _ <-]. }
  by rewrite (before_print_again r base d d1 created ending E Hcreated).
Qed.

End DiskAgain.

Lemma write_files_again_witness :
  write_files (C := mock_console) [new_file] project true false project_disk
  = (Disk.put project_disk [txt "project"; txt "new.py"]
       (Disk.File true (txt "x = 1")),
     [Done Updated (txt "new.py")], inr [txt "/project/new.py"])
  ∧ write_files (C := mock_console) [new_file] project true false
      (Disk.put project_disk [txt "project"; txt "new.py"]
         (Disk.File true (txt "x = 1")))
    = (Disk.put project_disk [txt "project"; txt "new.py"]
         (Disk.File true (txt "x = 1")),
       [Done Updated (txt "new.py")], inr [txt "/project/new.py"]).
Proof.
  assert (write_files (C := mock_console) [new_file] project true false
            project_disk
          = (Disk.put project_disk [txt "project"; txt "new.py"]
               (Disk.File true (txt "x = 1")),
             [Done Updated (txt "new.py")], inr [txt "/project/new.py"]))
    as H by (vm_compute; reflexivity).
  split; [exact H|].
  apply (write_files_again (C := mock_console) _ _ _ _ _ _ H). discriminate.
Defined.

(** ** The automatic write *)

Section Cli.

Context {fs : Type} {FS : FileSystem fs} {C : Console Notice}.

Lemma before_print_defaults base r (d d' : fs) c new n :
  content r = Some c →
  before_print base true false r d = (d', new, Prints n) →
  cli_notice n.
Proof.
  intros Hc. unfold before_print. rewrite Hc.
  repeat case_match; intros [= _ _ <-]; try done.
  all: match goal with
       | H : _ && negb true = true |- _ =>
           simpl in H; by rewrite andb_false_r in H
       end.
Qed.

Lemma failure_notice_cli fp e : cli_notice (failure_notice fp e).
Proof. by destruct e. Qed.

Lemma write_loop_defaults base files : ∀ (st st' : State fs) res,
  Forall (fun r => is_Some (content r)) files →
  write_loop base true false files st = (st', res) →
  ∃ log, console st' = console st ++ log ∧ Forall cli_notice log.
Proof.
  induction files as [|r rest IH]; intros st st' res Hall.
  - intros [= <- _]. exists []. by rewrite app_nil_r.
  - apply Forall_cons in Hall as [[c Hc] Hall].
    rewrite write_loop_cons, write_one_before_print.
    destruct (before_print base true false r (disk st)) as [[d1 new] ending]
      eqn:E.
    assert (∀ n, ending = Prints n → cli_notice n) as Hn
      by (intros n ->; by eapply before_print_defaults).
    assert (∀ st1 res1,
              finish_turn (filepath r) (console st) (created_files st)
                (d1, new, ending) = (st1, res1) →
              ∃ log, console st1 = console st ++ log ∧ Forall cli_notice log)
      as Hturn.
    { unfold finish_turn. intros st1 res1.
      assert (∀ e,
        match print_error (failure_notice (filepath r) e) with
        | None =>
            (mkState d1 (console st ++ [failure_notice (filepath r) e])
               (created_files st ++ new), inr tt)
        | Some e' =>
            (mkState d1 (console st) (created_files st ++ new), inl e')
        end = (st1, res1) →
        ∃ log, console st1 = console st ++ log ∧ Forall cli_notice log)
        as Hfailed.
      { intros e. destruct (print_error (failure_notice (filepath r) e));
          intros [= <- _]; cbn [console].
        - exists []. by rewrite app_nil_r.
        - eexists. split; [done|].
          constructor; [apply failure_notice_cli|done]. }
      destruct ending as [n|e]; [|apply Hfailed].
      destruct (print_error n); [apply Hfailed|].
      intros [= <- _]. cbn [console]. eexists. split; [done|].
      constructor; [by apply Hn|done]. }
    destruct (finish_turn (filepath r) (console st) (created_files st)
                (d1, new, ending)) as [st1 [e|[]]] eqn:Ht;
      destruct (Hturn _ _ eq_refl) as (log1 & Hlog1 & Hall1).
    + intros [= <- _]. by exists log1.
    + intros H. destruct (IH _ _ _ Hall H) as (log & Hlog & Hall').
      exists (log1 ++ log). rewrite Hlog, Hlog1, <- app_assoc.
      split; [done|]. by apply Forall_app.
Qed.

Lemma extract_files_have_content response :
  Forall (fun r => is_Some (content r)) (extract_files response).
Proof.
  apply Forall_forall. intros r Hr.
  apply extract_files_from_match in Hr as (m & _ & ->). by eexists.
Qed.

(** X17: whatever the response, the filesystem and the console, and
    whether the automatic write of [chat_loop] ends or raises, of the
    lines of [write_files] it never prints the security line, the line
    for an existing file, the line for a missing content, or [Created]:
    every file that it reports is reported as [Updated]. *)
Theorem auto_write_lines project_folder full_response (d : fs) :
  Forall (fun line => ∀ n, line = FromWriter n → cli_notice n)
    (auto_write project_folder full_response d).1.2.
Proof.
  unfold auto_write.
  destruct project_folder as [pf|]; [|by constructor].
  destruct (extract_files (concat full_response)) as [|r files] eqn:E;
    [by constructor|].
  rewrite <- E. unfold write_files.
  destruct (write_loop pf true false (extract_files (concat full_response))
              (mkState d [] [])) as [st' res] eqn:Hrun.
  destruct (write_loop_defaults pf _ _ _ _ (extract_files_have_content _) Hrun)
    as (log & Hlog & Hall).
  cbn [console app] in Hlog.
  assert (Forall (fun line => ∀ n, line = FromWriter n → cli_notice n)
            (map FromWriter (console st'))) as Hlines.
  { rewrite Hlog. apply Forall_forall. intros line Hline n ->.
    apply list_elem_of_In, in_map_iff in Hline as (n' & [= ->] & Hn').
    rewrite Forall_forall in Hall. apply Hall. by apply list_elem_of_In. }
  destruct res as [e|[]]; cbn [fst snd].
  - constructor; [intros n; discriminate|done].
  - constructor; [intros n; discriminate|].
    apply Forall_app. split; [done|].
    destruct (created_files st'); constructor; [|constructor].
    intros n; discriminate.
Qed.

(** X18: without a project folder, or on a response that holds no
    [**File:] or no closing fence, the automatic write prints nothing
    and leaves the disk as it is. *)
Theorem auto_write_nothing_to_do project_folder full_response (d : fs) :
  project_folder = None
  ∨ occurs (txt "**File:") (concat full_response) = false
  ∨ occurs closing (concat full_response) = false →
  auto_write project_folder full_response d = (d, [], inr tt).
Proof.
  intros H. unfold auto_write.
  destruct project_folder as [pf|]; [|done].
  destruct H as [H|H]; [done|].
  by rewrite (extract_nil_without_marker_or_fence _ H).
Qed.

(** X19: a complete block whose marker holds whitespace only between
    its backticks is announced as one file to write and then skipped:
    the disk is left as it is and no success line follows. *)
Theorem auto_write_blank_marker pf full_response pre path lang body post
    (d : fs) :
  concat full_response = pre ++ block path lang body ++ post →
  star_free pre = true → star_free post = true →
  file_block_ok path lang body = true →
  forallb Char.isspace path = true →
  auto_write (Some pf) full_response d
  = (d, [WritingFiles 1; FromWriter SkippingEmptyFilepath], inr tt).
Proof.
  intros Htext Hpre Hpost Hok Hblank. unfold auto_write.
  rewrite Htext, extract_one_block by done.
  apply strip_nil in Hblank. rewrite Hblank.
  rewrite write_files_single. unfold before_print, finish_turn.
  cbn [filepath truthy negb orb].
  by rewrite (print_plain SkippingEmptyFilepath) by reflexivity.
Qed.

Lemma lstrip_idem s : lstrip (lstrip s) = lstrip s.
Proof. apply lstrip_idem_head. apply lstrip_head. Qed.

Lemma strip_idem s : strip (strip s) = strip s.
Proof.
  unfold strip at 1.
  rewrite (lstrip_idem_head (strip s)) by apply strip_head.
  unfold strip, rstrip. by rewrite rev_involutive, lstrip_idem.
Qed.

Lemma not_blank_strip path :
  forallb Char.isspace path = false →
  negb (truthy (strip path)) || bool_decide (strip (strip path) = []) = false.
Proof.
  intros H. rewrite strip_idem.
  assert (strip path ≠ []) as Hne.
  { intros E. apply strip_nil in E. congruence. }
  rewrite bool_decide_eq_false_2 by done. by destruct (strip path).
Qed.

(** X20: a response of chunks that together hold one complete block
    with a path that is not blank and holds no opening square bracket
    is written to the end when the filesystem lets it: the stripped
    body goes to the path resolved from the project folder and the
    stripped path, and the console has the announcement, the [Updated]
    line and the success line. *)
Theorem auto_write_one_file pf full_response pre path lang body post
    (d d1 d2 : fs) full present :
  concat full_response = pre ++ block path lang body ++ post →
  star_free pre = true → star_free post = true →
  file_block_ok path lang body = true →
  forallb Char.isspace path = false →
  markup_free (strip path) = true →
  resolve d (truediv pf (strip path)) = inr full →
  path_exists d full = inr present →
  mkdir_parents d (parent full) = (d1, inr tt) →
  write_text d1 full (strip body) = (d2, inr tt) →
  auto_write (Some pf) full_response d
  = (d2,
     [WritingFiles 1; FromWriter (Done Updated (strip path));
      SuccessfullyCreated 1],
     inr tt).
Proof.
  intros Htext Hpre Hpost Hok Hpath Hfree Hfull Hpresent Hmk Hw.
  unfold auto_write. rewrite Htext, extract_one_block by done.
  rewrite write_files_single.
  rewrite (before_print_writes pf true
             (mkFile (strip path) (Some (strip body)) (language_or_text lang))
             d full present d1
             (strip body) d2 (not_blank_strip path Hpath) Hfull Hpresent
             (andb_false_r _) Hmk eq_refl Hw).
  unfold finish_turn. cbn [filepath].
  rewrite (print_plain (Done Updated (strip path))); [done|].
  unfold plain. cbn [interpolated Notice_line forallb].
  by rewrite Hfree.
Qed.

End Cli.

Lemma auto_write_nothing_to_do_witness :
  auto_write (C := mock_console) None
    [block (txt "app.py") (txt "python") (txt "print(1)")] project_disk
  = (project_disk, [], inr tt).
Proof. apply (auto_write_nothing_to_do (C := mock_console)). by left. Defined.

Lemma auto_write_blank_marker_witness :
  auto_write (C := mock_console) (Some project)
    [txt "**File: ` `**"; Char.nl :: fence; Char.nl :: txt "x"; closing]
    project_disk
  = (project_disk, [WritingFiles 1; FromWriter SkippingEmptyFilepath],
     inr tt).
Proof.
  apply (auto_write_blank_marker (C := mock_console) project _ [] (txt " ") []
           (txt "x") []);
    reflexivity.
Defined.

Lemma auto_write_one_file_witness :
  auto_write (C := mock_console) (Some project)
    [block (txt "app.py") (txt "python") (txt "print(1)")] project_disk
  = (Disk.put project_disk [txt "project"; txt "app.py"]
       (Disk.File true (txt "print(1)")),
     [WritingFiles 1; FromWriter (Done Updated (strip (txt "app.py")));
      SuccessfullyCreated 1],
     inr tt).
Proof.
  apply (auto_write_one_file (C := mock_console) project _ [] (txt "app.py")
           (txt "python") (txt "print(1)") [] project_disk project_disk _
           (path_of (txt "/project/app.py")) false);
    vm_compute; reflexivity.
Defined.

(** ** Slash commands *)

Section CommandFacts.

Context {S : Type} {C : Console HandlerLine}.

Lemma split_once_nil s :
  split_once s = [] ↔ forallb Char.isspace s = true.
Proof.
  unfold split_once. rewrite <- lstrip_nil.
  destruct (lstrip s) as [|c s1] eqn:E; [done|].
  split; [|done].
  by destruct (lstrip (drop (length (first_word (c :: s1))) (c :: s1))).
Qed.

(** X21: when nothing but whitespace follows the first character of
    the line, [handle_command] raises the [IndexError] of [parts[0]],
    prints nothing and runs no command.  On any other line, what
    [handle_command] raises is an exception of a command that is no
    [Exception], or an exception that the console raises on a line. *)
Theorem handle_command_raises_on_blank (commands : gmap text (@Command S))
    command_line s :
  (forallb Char.isspace (drop 1 command_line) = true →
   handle_command commands command_line s = (s, [], inl (Exception IndexError)))
  ∧ (forallb Char.isspace (drop 1 command_line) = false →
     ∀ s' lines x,
       handle_command commands command_line s = (s', lines, inl x) →
       (∃ detail, x = BaseException detail)
       ∨ (∃ line e, print_error line = Some e ∧ x = Exception e)).
Proof.
  unfold handle_command. split.
  - intros H. apply split_once_nil in H. by rewrite H.
  - intros H s' lines x.
    destruct (split_once (drop 1 command_line)) as [|part0 more] eqn:E.
    { apply split_once_nil in E. congruence. }
    case_bool_decide; [done|].
    destruct (commands !! lower part0) as [command|].
    + destruct (command _ s) as [s1 [[e1|detail]|[]]]; [| |done].
      * destruct (print_error (CommandError e1)) as [e'|] eqn:Hp; [|done].
        intros [= _ _ <-]. right. by eexists _, _.
      * intros [= _ _ <-]. left. by eexists.
    + destruct (print_error (UnknownCommand (lower part0))) as [e'|] eqn:Hp.
      { intros [= _ _ <-]. right. by eexists _, _. }
      destruct (print_error TypeHelpHint) as [e'|] eqn:Hp'; [|done].
      intros [= _ _ <-]. right. by eexists _, _.
Qed.

Lemma first_word_app w sp rest :
  forallb (fun c => negb (Char.isspace c)) w = true →
  Char.isspace sp = true →
  first_word (w ++ sp :: rest) = w.
Proof.
  intros Hw Hsp. induction w as [|c w IH]; simpl in *.
  - by rewrite Hsp.
  - apply andb_true_iff in Hw as [Hc Hw].
    apply negb_true_iff in Hc. rewrite Hc. by rewrite IH.
Qed.

Lemma lstrip_word w rest :
  w ≠ [] → forallb (fun c => negb (Char.isspace c)) w = true →
  lstrip (w ++ rest) = w ++ rest.
Proof.
  intros Hne Hw. destruct w as [|c w]; [done|]. simpl in *.
  apply andb_true_iff in Hw as [Hc _]. apply negb_true_iff in Hc.
  by rewrite Hc.
Qed.

(** The parts of a line: a word, whitespace, and the rest. *)
Lemma split_once_word w sp rest :
  w ≠ [] → forallb (fun c => negb (Char.isspace c)) w = true →
  Char.isspace sp = true →
  split_once (w ++ sp :: rest)
  = match lstrip rest with
    | [] => [w]
    | args => [w; args]
    end.
Proof.
  intros Hne Hw Hsp. unfold split_once. rewrite lstrip_word by done.
  destruct (w ++ sp :: rest) as [|c s1] eqn:E; [by destruct w|].
  rewrite <- E, first_word_app by done.
  rewrite drop_app_length. simpl. by rewrite Hsp.
Qed.

(** X22: a registered command is found by the first word of the line
    in lower case, whatever the first character of the line, and gets
    the rest of the line without its leading whitespace as arguments.
    When it returns, [True] is returned to continue; when it raises an
    [Exception], the error line is printed and [True] is returned, or
    the console refuses the line and its exception is raised; what it
    raises that is no [Exception] is raised as it is. *)
Theorem handle_command_dispatch (commands : gmap text (@Command S))
    c w sp rest command s :
  w ≠ [] → forallb (fun c => negb (Char.isspace c)) w = true →
  Char.isspace sp = true →
  lower w ∉ [txt "exit"; txt "quit"] →
  commands !! lower w = Some command →
  (∀ s', command (lstrip rest) s = (s', inr tt) →
         handle_command commands (c :: w ++ sp :: rest) s = (s', [], inr true))
  ∧ (∀ s' e,
       command (lstrip rest) s = (s', inl (Exception e)) →
       handle_command commands (c :: w ++ sp :: rest) s
       = match print_error (CommandError e) with
         | None => (s', [CommandError e], inr true)
         | Some e' => (s', [], inl (Exception e'))
         end)
  ∧ (∀ s' detail,
       command (lstrip rest) s = (s', inl (BaseException detail)) →
       handle_command commands (c :: w ++ sp :: rest) s
       = (s', [], inl (BaseException detail))).
Proof.
  intros Hne Hw Hsp Hexit Hcmd.
  assert (handle_command commands (c :: w ++ sp :: rest) s
          = match command (lstrip rest) s with
            | (s', inr _) => (s', [], inr true)
            | (s', inl (Exception e)) =>
                match print_error (CommandError e) with
                | None => (s', [CommandError e], inr true)
                | Some e' => (s', [], inl (Exception e'))
                end
            | (s', inl (BaseException detail)) =>
                (s', [], inl (BaseException detail))
            end) as ->.
  { unfold handle_command.
    change (drop 1 (c :: w ++ sp :: rest)) with (w ++ sp :: rest).
    rewrite split_once_word by done.
    destruct (lstrip rest) as [|a args] eqn:E;
      by rewrite bool_decide_eq_false_2, Hcmd by done. }
  split; [|split].
  - intros s' H. by rewrite H.
  - intros s' e H. by rewrite H.
  - intros s' detail H. by rewrite H.
Qed.

(** X23: [exit] and [quit] as first word, in any case and with
    anything after them, return [False] without printing and without
    running a command, also when the dictionary has that name. *)
Theorem handle_command_exit (commands : gmap text (@Command S))
    c w sp rest s :
  w ≠ [] → forallb (fun c => negb (Char.isspace c)) w = true →
  Char.isspace sp = true →
  lower w ∈ [txt "exit"; txt "quit"] →
  handle_command commands (c :: w) s = (s, [], inr false)
  ∧ handle_command commands (c :: w ++ sp :: rest) s = (s, [], inr false).
Proof.
  intros Hne Hw Hsp Hexit. unfold handle_command.
  change (drop 1 (c :: w ++ sp :: rest)) with (w ++ sp :: rest).
  change (drop 1 (c :: w)) with w. split.
  - assert (split_once w = [w]) as ->.
    { unfold split_once. rewrite <- (app_nil_r w) at 1.
      rewrite lstrip_word by done. rewrite app_nil_r.
      destruct w as [|a w]; [done|].
      assert (first_word (a :: w) = a :: w) as ->.
      { clear -Hw. induction (a :: w) as [|x l IH]; simpl in *; [done|].
        apply andb_true_iff in Hw as [Hx Hw].
        apply negb_true_iff in Hx. by rewrite Hx, IH. }
      by rewrite drop_all. }
    by rewrite bool_decide_eq_true_2.
  - rewrite split_once_word by done.
    destruct (lstrip rest); by rewrite bool_decide_eq_true_2.
Qed.

End CommandFacts.

Example split_once_examples :
  split_once (txt "help") = [txt "help"]
  ∧ split_once (txt "  model   opus  ") = [txt "model"; txt "opus  "]
  ∧ split_once (txt "advent ") = [txt "advent"]
  ∧ split_once (txt "   ") = []
  ∧ lower (txt "eXiT") = txt "exit".
Proof. vm_compute. done. Qed.

(** A command that raises with a closing tag as message: the mock of
    the tests prints the error line, the strict console refuses it; a
    name with a closing tag that is no command is refused as well. *)
Example handle_command_on_two_consoles :
  handle_command (C := mock_console) {[ txt "model" := raise_args ]}
    (txt "/model [/b]") []
  = ([], [CommandError (OtherException (txt "[/b]"))], inr true)
  ∧ handle_command (C := strict_console) {[ txt "model" := raise_args ]}
      (txt "/model [/b]") []
    = ([], [], inl (Exception MarkupError))
  ∧ handle_command (C := strict_console) help_only (txt "/[/b]") []
    = ([], [], inl (Exception MarkupError)).
Proof. vm_compute. done. Qed.

Lemma handle_command_dispatch_witness :
  handle_command (C := mock_console) help_only (txt "/HELP  me now ") []
  = ([txt "me now "], [], inr true).
Proof.
  assert (lower (txt "HELP") ∉ [txt "exit"; txt "quit"]) as Hexit.
  { intros H. apply elem_of_cons in H as [H|H]; [discriminate|].
    apply elem_of_cons in H as [H|H]; [discriminate|].
    by apply elem_of_nil in H. }
  exact (proj1 (handle_command_dispatch (C := mock_console) help_only
                  "/"%char (txt "HELP") " "%char
                  (txt " me now ") record_args []
                  ltac:(discriminate) eq_refl eq_refl Hexit eq_refl)
           [txt "me now "] eq_refl).
Defined.

Lemma handle_command_exit_witness :
  handle_command (C := mock_console) help_only (txt "/Quit") ([] : list text)
  = ([], [], inr false)
  ∧ handle_command (C := mock_console) help_only (txt "/Quit now")
      ([] : list text)
    = ([], [], inr false).
Proof.
  apply (handle_command_exit (C := mock_console) help_only "/"%char
           (txt "Quit") " "%char (txt "now") []).
  - discriminate.
  - reflexivity.
  - reflexivity.
  - right. left.
Defined.


(** ** The advent command *)

Section AdventFacts.

Import Advent.

Local Open Scope Z_scope.

Ltac mem H :=
  repeat first
    [ apply elem_of_app in H as [H|H]
    | apply elem_of_cons in H as [H|H]
    | apply elem_of_nil in H; destruct H ];
  try discriminate.

Lemma challenge_for_day day :
  1 <= day <= 25 → is_Some (CHALLENGES !! day).
Proof.
  intros H.
  assert (∃ n : nat, day = Z.of_nat n ∧ (1 <= n <= 25)%nat) as (n & -> & Hn).
  { exists (Z.to_nat day). lia. }
  do 26 (destruct n as [|n]; [try lia; vm_compute; by eexists|]). lia.
Qed.

(** X24: whatever [int] returns and whatever the month and the
    arguments, [execute] raises no [KeyError]: on every day of a month
    the key that it looks up is in [CHALLENGES]. *)
Theorem advent_finds_challenge int now_month now_day args :
  1 <= now_day →
  ∃ lines, execute int now_month now_day args = inr lines.
Proof.
  intros Hday. unfold execute.
  destruct (negb (now_month =? 12)); [by eexists|].
  destruct (25 <? now_day) eqn:Hlate.
  - destruct (truthy args).
    + destruct (int args) as [k|]; [|by eexists].
      destruct ((1 <=? k) && (k <=? 25)) eqn:Hk; [|by eexists].
      destruct (challenge_for_day k) as [c ->]; [lia|by eexists].
    + destruct (challenge_for_day 25) as [c ->]; [lia|by eexists].
  - destruct (truthy args).
    + destruct (int args) as [k|]; [|by eexists].
      destruct ((1 <=? k) && (k <=? 25)) eqn:Hk; [|by eexists].
      destruct (challenge_for_day k) as [c ->]; [lia|by eexists].
    + destruct (challenge_for_day now_day) as [c ->]; [lia|by eexists].
Qed.

(** X25: the progress that [execute] shows is between 0 and 24, never
    25 of 25: after the 25th of December it is 24, in the same output
    as the line that says that all challenges are complete. *)
Theorem advent_progress_below_25 int now_month now_day args lines n :
  1 <= now_day →
  execute int now_month now_day args = inr lines →
  Progress n ∈ lines →
  0 <= n <= 24 ∧ (25 < now_day → n = 24 ∧ AllComplete ∈ lines).
Proof.
  intros Hday. unfold execute.
  destruct (negb (now_month =? 12)); [intros [= <-] Hn; by mem Hn|].
  destruct (25 <? now_day) eqn:Hlate.
  - destruct (truthy args).
    + destruct (int args) as [k|]; [|intros [= <-] Hn; by mem Hn].
      destruct ((1 <=? k) && (k <=? 25)); [|intros [= <-] Hn; by mem Hn].
      destruct (CHALLENGES !! k); [|done]. intros [= <-] Hn. by mem Hn.
    + destruct (CHALLENGES !! 25); [|done]. intros [= <-] Hn.
      cbn in Hn. mem Hn. injection Hn as ->.
      split; [lia|]. intros _. split; [done|]. by left.
  - apply Z.ltb_ge in Hlate. destruct (truthy args).
    + destruct (int args) as [k|]; [|intros [= <-] Hn; by mem Hn].
      destruct ((1 <=? k) && (k <=? 25)); [|intros [= <-] Hn; by mem Hn].
      destruct (CHALLENGES !! k); [|done]. intros [= <-] Hn. by mem Hn.
    + destruct (CHALLENGES !! now_day); [|done]. intros [= <-] Hn.
      rewrite (proj2 (Z.leb_le now_day 25)) in Hn by done.
      cbn [app] in Hn. mem Hn.
      * injection Hn as ->. split; lia.
      * destruct (0 <? 25 - now_day); by mem Hn.
Qed.

End AdventFacts.

Lemma advent_finds_challenge_witness :
  ∃ lines, Advent.execute (fun _ => None) 12 31 [] = inr lines.
Proof. apply advent_finds_challenge. lia. Defined.

Lemma advent_progress_below_25_witness :
  Advent.execute (fun _ => None) 12 30 [] = inr lines_december_30
  ∧ Advent.Progress 24 ∈ lines_december_30
  ∧ (0 ≤ 24 ≤ 24)%Z
  ∧ ((25 < 30)%Z → 24%Z = 24%Z ∧ Advent.AllComplete ∈ lines_december_30).
Proof.
  assert (Advent.execute (fun _ => None) 12 30 [] = inr lines_december_30)
    as H by (vm_compute; reflexivity).
  assert (Advent.Progress 24 ∈ lines_december_30) as Hin
    by (unfold lines_december_30; repeat constructor).
  split; [exact H|]. split; [exact Hin|].
  apply (advent_progress_below_25 (fun _ => None) 12 30 []
           lines_december_30 24); [lia|exact H|exact Hin].
Defined.

